(** * cloudapp-backend: upload, list and restore handlers over a local
      directory and a remote image store

    A shallow embedding of [index.js] (the three route handlers) and of
    [cloudinary.js].  The handlers are written in a small
    state-and-exception monad over a [World] that holds the local files,
    the remote store and the answers of the network; every call that
    leaves the process is recorded in a log, so that the order and the
    number of calls can be stated. *)

From Stdlib Require Import Ascii String List ZArith NArith Bool Lia.
From Stdlib Require Import DecimalString.
From stdpp Require Import base strings gmap list.

Local Open Scope string_scope.
Local Open Scope list_scope.

(** ** JavaScript strings

    Strings are sequences of one-byte characters.  Only the operations the
    handlers use are modelled, each with the behaviour of its JavaScript
    namesake on a one-character separator. *)

Module Js.

(** [s.split(sep)] for a one-character separator: never empty, the empty
    string gives one empty piece. *)
Fixpoint split (sep : ascii) (s : string) : list string :=
  match s with
  | EmptyString => [EmptyString]
  | String c rest =>
      if Ascii.eqb c sep then EmptyString :: split sep rest
      else match split sep rest with
           | piece :: pieces => String c piece :: pieces
           | [] => [String c EmptyString]
           end
  end.

(** [parts.join(sep)]. *)
Fixpoint join (sep : string) (parts : list string) : string :=
  match parts with
  | [] => EmptyString
  | [p] => p
  | p :: ps => p +:+ sep +:+ join sep ps
  end.

(** [parts[0]] of an array that [split] returned. *)
Definition first (parts : list string) : string := hd EmptyString parts.

(** [parts.slice(1)]. *)
Definition slice1 (parts : list string) : list string := tl parts.

(** [arr.includes(x)] on an array of strings. *)
Definition includes (arr : list string) (x : string) : bool :=
  existsb (String.eqb x) arr.

Definition lower_ascii (c : ascii) : ascii :=
  let n := nat_of_ascii c in
  if (65 <=? n)%nat && (n <=? 90)%nat then ascii_of_nat (n + 32) else c.

(** [s.toLowerCase()] on the letters A to Z; other bytes are kept. *)
Fixpoint toLowerCase (s : string) : string :=
  match s with
  | EmptyString => EmptyString
  | String c rest => String (lower_ascii c) (toLowerCase rest)
  end.

(** The character class of [/[^a-zA-Z0-9.-]/]. *)
Definition keeps (c : ascii) : bool :=
  let n := nat_of_ascii c in
  ((97 <=? n)%nat && (n <=? 122)%nat) || ((65 <=? n)%nat && (n <=? 90)%nat)
  || ((48 <=? n)%nat && (n <=? 57)%nat) || (n =? 46)%nat || (n =? 45)%nat.

(** [s.replace(/[^a-zA-Z0-9.-]/g, '_')]. *)
Fixpoint sanitize (s : string) : string :=
  match s with
  | EmptyString => EmptyString
  | String c rest => String (if keeps c then c else "_"%char) (sanitize rest)
  end.

(** Decimal rendering of a number in a string concatenation. *)
Definition of_N (n : N) : string := NilZero.string_of_uint (N.to_uint n).

End Js.

(** ** Node's [path] module (POSIX) *)

Module Path.

(** One segment of the walk of [normalizeString]; [stack] holds the
    segments kept so far, the last one first.  Empty segments and [.] are
    skipped; [..] removes the last segment kept, and is itself kept only in
    a relative path that has nothing left to remove. *)
Definition push_segment (allowAboveRoot : bool) (stack : list string) (seg : string)
  : list string :=
  if String.eqb seg EmptyString || String.eqb seg "." then stack
  else if String.eqb seg ".." then
    match stack with
    | top :: below =>
        if String.eqb top ".." then (if allowAboveRoot then seg :: stack else stack)
        else below
    | [] => if allowAboveRoot then [seg] else []
    end
  else seg :: stack.

Definition normalizeString (p : string) (allowAboveRoot : bool) : string :=
  Js.join "/" (rev (fold_left (push_segment allowAboveRoot) (Js.split "/" p) [])).

Fixpoint ends_with_slash (p : string) : bool :=
  match p with
  | EmptyString => false
  | String c EmptyString => Ascii.eqb c "/"
  | String _ rest => ends_with_slash rest
  end.

(** [path.normalize(p)]. *)
Definition normalize (p : string) : string :=
  match p with
  | EmptyString => "."
  | String c _ =>
      let isAbsolute := Ascii.eqb c "/" in
      let trailingSeparator := ends_with_slash p in
      let q := normalizeString p (negb isAbsolute) in
      if String.eqb q EmptyString
      then (if isAbsolute then "/" else if trailingSeparator then "./" else ".")
      else (if isAbsolute then "/" else EmptyString)
             +:+ q +:+ (if trailingSeparator then "/" else EmptyString)
  end.

(** [path.join(...args)]: the non-empty arguments, joined by a slash and
    normalised. *)
Definition join_all (args : list string) : string :=
  let joined := Js.join "/" (List.filter (fun arg => negb (String.eqb arg EmptyString)) args) in
  if String.eqb joined EmptyString then "." else normalize joined.

Definition join (dir name : string) : string := join_all [dir; name].

Definition join3 (dir sub name : string) : string := join_all [dir; sub; name].

(** A path without the slash that [normalize] may leave at its end. *)
Fixpoint untrail (p : string) : string :=
  match p with
  | EmptyString => EmptyString
  | String c rest =>
      match rest with
      | EmptyString => p
      | String c' EmptyString => if Ascii.eqb c' "/" then String c EmptyString else p
      | _ => String c (untrail rest)
      end
  end.

(** The scanner state of [path.extname]. *)
Record scan := {
  startDot : Z;
  startPart : Z;
  end_ : Z;
  matchedSlash : bool;
  preDotState : Z
}.

Definition scan0 : scan :=
  {| startDot := -1; startPart := 0; end_ := -1; matchedSlash := true; preDotState := 0 |}.

(** The right-to-left loop of [path.extname]: [n] is one more than the
    index looked at. *)
Fixpoint extname_loop (p : string) (n : nat) (st : scan) : scan :=
  match n with
  | O => st
  | S i =>
      match String.get i p with
      | None => extname_loop p i st
      | Some code =>
          if Ascii.eqb code "/"%char then
            if negb (matchedSlash st) then
              {| startDot := startDot st; startPart := Z.of_nat i + 1; end_ := end_ st;
                 matchedSlash := matchedSlash st; preDotState := preDotState st |}
            else extname_loop p i st
          else
            let st1 :=
              if (end_ st =? -1)%Z then
                {| startDot := startDot st; startPart := startPart st;
                   end_ := Z.of_nat i + 1; matchedSlash := false;
                   preDotState := preDotState st |}
              else st in
            let st2 :=
              if Ascii.eqb code "."%char then
                if (startDot st1 =? -1)%Z then
                  {| startDot := Z.of_nat i; startPart := startPart st1; end_ := end_ st1;
                     matchedSlash := matchedSlash st1; preDotState := preDotState st1 |}
                else if negb (preDotState st1 =? 1)%Z then
                  {| startDot := startDot st1; startPart := startPart st1; end_ := end_ st1;
                     matchedSlash := matchedSlash st1; preDotState := 1 |}
                else st1
              else if negb (startDot st1 =? -1)%Z then
                {| startDot := startDot st1; startPart := startPart st1; end_ := end_ st1;
                   matchedSlash := matchedSlash st1; preDotState := -1 |}
              else st1 in
            extname_loop p i st2
      end
  end.

(** [path.extname(p)]: from the last dot of the last path portion to its
    end; empty when there is no dot, when the only dot starts the name, and
    for the name [".."]. *)
Definition extname (p : string) : string :=
  let st := extname_loop p (String.length p) scan0 in
  if (startDot st =? -1)%Z || (end_ st =? -1)%Z || (preDotState st =? 0)%Z
     || ((preDotState st =? 1)%Z && (startDot st =? end_ st - 1)%Z
         && (startDot st =? startPart st + 1)%Z)
  then EmptyString
  else String.substring (Z.to_nat (startDot st)) (Z.to_nat (end_ st - startDot st)) p.

End Path.

Arguments Path.normalize : simpl never.
Arguments Path.join_all : simpl never.
Arguments Path.join : simpl never.
Arguments Path.join3 : simpl never.
Arguments Path.untrail : simpl never.

(** ** Errors, outcomes and the monad of the handlers *)

(** What a JavaScript [throw] carries, by origin. *)
Inductive JsError :=
  | NetworkFault                 (* a remote call that could not complete *)
  | RemoteNotFound               (* the remote API knows no such resource *)
  | FsError (code : string)      (* ENOENT, EACCES, EPERM, EISDIR, ... *)
  | Error (message : string)     (* [new Error(message)] *)
  | TypeError (message : string).

(** [err.message]. *)
Definition message (e : JsError) : string :=
  match e with
  | NetworkFault => "network fault"
  | RemoteNotFound => "Resource not found"
  | FsError code => code
  | Error m => m
  | TypeError m => m
  end.

(** The result of running a piece of code: a value, a thrown error, or a
    loop that was cut by its fuel (which the upload handler never reaches,
    see [upload_retry_run]). *)
Inductive outcome (A : Type) :=
  | Ok (a : A)
  | Throw (e : JsError)
  | OutOfFuel.
Arguments Ok {A} a.
Arguments Throw {A} e.
Arguments OutOfFuel {A}.

(** *** The world outside the process *)

Inductive Status := available | missing.

(** An entry of the file system: a regular file or a directory. *)
Record FileMeta := {
  fm_size : N;
  fm_birthtime : N;
  fm_readable : bool;   (* [access(R_OK)] resolves *)
  fm_locked : bool;     (* [unlinkSync] throws *)
  fm_directory : bool;  (* a directory: it exists, but it cannot be read as a file *)
  fm_format : string    (* the image format the remote service detects in its bytes *)
}.

(** The uploads directory as [readdir] sees it.  Its names are a snapshot:
    a name whose file is not in [w_files] is a file that went away after
    the directory was read.  A directory that is not there can be created
    ([DirMissing]) or not ([DirBlocked], its parent cannot be written). *)
Inductive DirState :=
  | DirMissing
  | DirBlocked
  | DirUnreadable
  | DirOk (names : list string).

Inductive HeadReply := HeadOk | HeadNotOk | HeadFault.

(** Calls that leave the process, with how they ended. *)
Inductive Event :=
  | EvUpload (filePath public_id : string) (ok : bool)
  | EvResource (public_id : string) (ok : bool)
  | EvHead (url : string) (reply : HeadReply)
  | EvSleep (ms : nat)
  | EvUnlink (filePath : string) (ok : bool)
  | EvGet (url : string) (reply : HeadReply)
  | EvDestroy (public_id : string) (ok : bool).

Record World := {
  w_dirname : string;                 (* [__dirname] *)
  w_cloud_name : string;              (* [process.env.CLOUDINARY_CLOUD_NAME] *)
  w_now : N;                          (* the clock *)
  w_dir : DirState;
  w_files : gmap string FileMeta;     (* files and directories on disk, by path *)
  w_cloud : gmap string string;       (* remote store: public id to secure URL *)
  w_cdn : gset string;                (* URLs that answer a HEAD with 2xx *)
  w_version : N;                      (* the version the remote store gives to the next upload *)
  w_faults : list bool;               (* successive remote calls: [true] is a network fault *)
  w_log : list Event                  (* calls made so far, oldest first *)
}.

Definition set_dir (d : DirState) (w : World) : World :=
  {| w_dirname := w_dirname w; w_cloud_name := w_cloud_name w; w_now := w_now w;
     w_dir := d; w_files := w_files w; w_cloud := w_cloud w; w_cdn := w_cdn w;
     w_version := w_version w; w_faults := w_faults w; w_log := w_log w |}.

Definition set_files (fs : gmap string FileMeta) (w : World) : World :=
  {| w_dirname := w_dirname w; w_cloud_name := w_cloud_name w; w_now := w_now w;
     w_dir := w_dir w; w_files := fs; w_cloud := w_cloud w; w_cdn := w_cdn w;
     w_version := w_version w; w_faults := w_faults w; w_log := w_log w |}.

Definition set_cloud (c : gmap string string) (w : World) : World :=
  {| w_dirname := w_dirname w; w_cloud_name := w_cloud_name w; w_now := w_now w;
     w_dir := w_dir w; w_files := w_files w; w_cloud := c; w_cdn := w_cdn w;
     w_version := w_version w; w_faults := w_faults w; w_log := w_log w |}.

Definition set_cdn (served : gset string) (w : World) : World :=
  {| w_dirname := w_dirname w; w_cloud_name := w_cloud_name w; w_now := w_now w;
     w_dir := w_dir w; w_files := w_files w; w_cloud := w_cloud w; w_cdn := served;
     w_version := w_version w; w_faults := w_faults w; w_log := w_log w |}.

Definition set_version (v : N) (w : World) : World :=
  {| w_dirname := w_dirname w; w_cloud_name := w_cloud_name w; w_now := w_now w;
     w_dir := w_dir w; w_files := w_files w; w_cloud := w_cloud w; w_cdn := w_cdn w;
     w_version := v; w_faults := w_faults w; w_log := w_log w |}.

Definition set_faults (f : list bool) (w : World) : World :=
  {| w_dirname := w_dirname w; w_cloud_name := w_cloud_name w; w_now := w_now w;
     w_dir := w_dir w; w_files := w_files w; w_cloud := w_cloud w; w_cdn := w_cdn w;
     w_version := w_version w; w_faults := f; w_log := w_log w |}.

Definition set_log (l : list Event) (w : World) : World :=
  {| w_dirname := w_dirname w; w_cloud_name := w_cloud_name w; w_now := w_now w;
     w_dir := w_dir w; w_files := w_files w; w_cloud := w_cloud w; w_cdn := w_cdn w;
     w_version := w_version w; w_faults := w_faults w; w_log := l |}.

(** *** The monad *)

Definition M (A : Type) : Type := World -> outcome A * World.

Definition ret {A} (a : A) : M A := fun w => (Ok a, w).

Definition bind {A B} (m : M A) (k : A -> M B) : M B :=
  fun w =>
    match m w with
    | (Ok a, w') => k a w'
    | (Throw e, w') => (Throw e, w')
    | (OutOfFuel, w') => (OutOfFuel, w')
    end.

Definition throw {A} (e : JsError) : M A := fun w => (Throw e, w).

(** [try { body } catch (err) { handler }]. *)
Definition try_catch {A} (body : M A) (handler : JsError -> M A) : M A :=
  fun w =>
    match body w with
    | (Throw e, w') => handler e w'
    | r => r
    end.

Definition out_of_fuel {A} : M A := fun w => (OutOfFuel, w).

#[global] Instance M_ret : MRet M := @ret.
#[global] Instance M_bind : MBind M := fun A B k m => bind m k.

Definition record (e : Event) : M unit :=
  fun w => (Ok tt, set_log (w_log w ++ [e]) w).

(** ** The local file system *)

(** [UPLOAD_DIR = path.join(__dirname, 'uploads')]. *)
Definition UPLOAD_DIR (w : World) : string := Path.join (w_dirname w) "uploads".

(** There is an entry at [p], file or directory. *)
Definition on_disk (w : World) (p : string) : bool :=
  bool_decide (is_Some (w_files w !! p)).

(** [p] is the directory [dirname], one of its ancestors, or the root. *)
Definition dir_above (p dirname : string) : bool :=
  String.eqb p "/" || String.eqb p dirname || String.prefix (p +:+ "/") dirname.

Definition dir_present (d : DirState) : bool :=
  match d with
  | DirMissing | DirBlocked => false
  | DirUnreadable | DirOk _ => true
  end.

(** [p], with or without a slash at its end, is a directory: an entry
    that is one, the uploads directory, or the directory of the application
    and what is above it. *)
Definition is_directory (w : World) (p : string) : bool :=
  let q := Path.untrail p in
  match w_files w !! q with
  | Some m => fm_directory m
  | None => false
  end
  || ((String.eqb p (UPLOAD_DIR w) || String.eqb q (UPLOAD_DIR w)) && dir_present (w_dir w))
  || dir_above q (w_dirname w).

(** The local file is there and can be read. *)
Definition readable (w : World) (p : string) : bool :=
  match w_files w !! p with
  | Some m => fm_readable m
  | None => false
  end.

Module Fs.

(** [fs.existsSync(p)]: never throws. *)
Definition existsSync (p : string) : M bool :=
  fun w => (Ok (on_disk w p || is_directory w p), w).

(** [fs.mkdirSync(p, { recursive: true })] of the uploads directory: it
    throws when a file is in the way and when the directory cannot be
    created. *)
Definition mkdirSync (p : string) : M unit :=
  fun w =>
    if on_disk w p then (Throw (FsError "EEXIST"), w)
    else match w_dir w with
         | DirMissing => (Ok tt, set_dir (DirOk []) w)
         | DirBlocked => (Throw (FsError "EACCES"), w)
         | DirUnreadable | DirOk _ => (Ok tt, w)
         end.

(** [fs.promises.readdir(p)] of the uploads directory. *)
Definition readdir (p : string) : M (list string) :=
  fun w =>
    match w_dir w with
    | DirOk names => (Ok names, w)
    | DirUnreadable => (Throw (FsError "EACCES"), w)
    | DirMissing | DirBlocked =>
        (Throw (FsError (if on_disk w p then "ENOTDIR" else "ENOENT")), w)
    end.

Record Stats := { st_size : N; st_birthtime : N }.

(** [fs.promises.stat(p)]. *)
Definition stat (p : string) : M Stats :=
  fun w =>
    match w_files w !! p with
    | Some m => (Ok {| st_size := fm_size m; st_birthtime := fm_birthtime m |}, w)
    | None => (Throw (FsError "ENOENT"), w)
    end.

(** [fs.promises.access(p, fs.constants.R_OK)]. *)
Definition access_R_OK (p : string) : M unit :=
  fun w =>
    match w_files w !! p with
    | Some m => if fm_readable m then (Ok tt, w) else (Throw (FsError "EACCES"), w)
    | None => (Throw (FsError "ENOENT"), w)
    end.

Definition drop_name (w : World) (p : string) (d : DirState) : DirState :=
  match d with
  | DirOk names =>
      DirOk (List.filter (fun n => negb (String.eqb (Path.join (UPLOAD_DIR w) n) p)) names)
  | d => d
  end.

(** [fs.unlinkSync(p)]: it throws for a file that cannot be removed and
    for a directory. *)
Definition unlinkSync (p : string) : M unit :=
  fun w =>
    match w_files w !! p with
    | Some m =>
        if fm_locked m || fm_directory m
        then (Throw (FsError "EPERM"), set_log (w_log w ++ [EvUnlink p false]) w)
        else (Ok tt,
              set_log (w_log w ++ [EvUnlink p true])
                (set_dir (drop_name w p (w_dir w)) (set_files (delete p (w_files w)) w)))
    | None => (Throw (FsError "ENOENT"), set_log (w_log w ++ [EvUnlink p false]) w)
    end.

End Fs.

(** [await new Promise(resolve => setTimeout(resolve, ms))]. *)
Definition sleep (ms : nat) : M unit := record (EvSleep ms).

(** ** The remote store and the network *)

(** Whether the next remote call meets a network fault. *)
Definition next_fault : M bool :=
  fun w =>
    match w_faults w with
    | [] => (Ok false, w)
    | f :: rest => (Ok f, set_faults rest w)
    end.

Record UploadResult := { secure_url : string; public_id : string }.

(** The delivery URL of an identifier, as [fetchResource] builds it. *)
Definition delivery_url (w : World) (publicId : string) : string :=
  "https://res.cloudinary.com/" +:+ w_cloud_name w +:+ "/image/upload/" +:+ publicId.

Module Cloudinary.

(** The URL the service gives to an upload: it carries the version of the
    upload and the format of the image. *)
Definition secure_url_of (w : World) (m : FileMeta) (publicId : string) : string :=
  "https://res.cloudinary.com/" +:+ w_cloud_name w +:+ "/image/upload/v"
    +:+ Js.of_N (w_version w) +:+ "/" +:+ publicId +:+ "." +:+ fm_format m.

(** The unversioned URLs under which an image is delivered, as it is and
    converted on the way. *)
Definition delivery_urls (w : World) (publicId : string) : list string :=
  delivery_url w publicId
    :: map (fun ext => delivery_url w publicId +:+ ext) [".jpg"; ".png"; ".gif"; ".webp"].

(** Why the bytes at [filePath] cannot be read. *)
Definition read_error (w : World) (filePath : string) : JsError :=
  match w_files w !! filePath with
  | Some m => FsError (if fm_directory m then "EISDIR" else "EACCES")
  | None => FsError (if is_directory w filePath then "EISDIR" else "ENOENT")
  end.

(** [cloudinary.uploader.upload(filePath, { resource_type: "auto", public_id })]:
    reads the file, which has to be a readable regular file, stores it
    under [public_id], replacing what was there, and from then on the
    image is delivered under the URL it returns and under the unversioned
    URLs.  The identifier is the one of the request; the service chooses
    one itself for a request that has an empty one, which is not told
    apart here, so what is stated of the identifier of a stored object is
    stated for a non-empty [public_id]. *)
Definition uploader_upload (filePath publicId : string) : M UploadResult :=
  fault ← next_fault;
  if (fault : bool) then record (EvUpload filePath publicId false);; throw NetworkFault
  else (fun w =>
    match w_files w !! filePath with
    | Some m =>
        if fm_readable m && negb (fm_directory m) then
          let url := secure_url_of w m publicId in
          (Ok {| secure_url := url; public_id := publicId |},
           set_log (w_log w ++ [EvUpload filePath publicId true])
             (set_version (N.succ (w_version w))
                (set_cdn (w_cdn w ∪ {[url]} ∪ list_to_set (delivery_urls w publicId))
                   (set_cloud (<[publicId := url]> (w_cloud w)) w))))
        else (Throw (read_error w filePath),
              set_log (w_log w ++ [EvUpload filePath publicId false]) w)
    | None => (Throw (read_error w filePath),
               set_log (w_log w ++ [EvUpload filePath publicId false]) w)
    end) : M _.

(** [cloudinary.api.resource(publicId)]: the metadata lookup. *)
Definition api_resource (publicId : string) : M UploadResult :=
  fault ← next_fault;
  if (fault : bool) then record (EvResource publicId false);; throw NetworkFault
  else (fun w =>
    match w_cloud w !! publicId with
    | Some url =>
        (Ok {| secure_url := url; public_id := publicId |},
         set_log (w_log w ++ [EvResource publicId true]) w)
    | None => (Throw RemoteNotFound, set_log (w_log w ++ [EvResource publicId false]) w)
    end) : M _.

End Cloudinary.

(** [fetch(url, { method: "HEAD", ... })], giving [resp.ok]. *)
Definition fetch_head (url : string) : M bool :=
  fault ← next_fault;
  if (fault : bool) then record (EvHead url HeadFault);; throw NetworkFault
  else (fun w =>
    if bool_decide (url ∈ w_cdn w)
    then (Ok true, set_log (w_log w ++ [EvHead url HeadOk]) w)
    else (Ok false, set_log (w_log w ++ [EvHead url HeadNotOk]) w)) : M _.

(** ** cloudinary.js *)

(** [uploadImage(filePath, originalName)]. *)
Definition uploadImage (filePath originalName : string) : M UploadResult :=
  try_catch
    (result ← Cloudinary.uploader_upload filePath (Js.first (Js.split "." originalName));
     ret result)
    (fun err => throw err).

Record ResourceCheck := {
  rc_exists : bool;
  rc_url : option string;
  rc_publicId : option string
}.

Definition not_found : ResourceCheck :=
  {| rc_exists := false; rc_url := None; rc_publicId := None |}.

(** [urlFormats] of [fetchResource]. *)
Definition urlFormats (w : World) (publicId : string) : list string :=
  [ delivery_url w publicId;
    delivery_url w publicId +:+ ".jpg";
    delivery_url w publicId +:+ ".png" ].

(** The [for (const url of urlFormats)] loop of [fetchResource]: [Some] is
    its [return], [None] is falling out of the loop. *)
Fixpoint probe_urls (publicId : string) (urls : list string) : M (option ResourceCheck) :=
  match urls with
  | [] => ret None
  | url :: rest =>
      hit ← try_catch
               (ok ← fetch_head url;
                if (ok : bool)
                then ret (Some {| rc_exists := true; rc_url := Some url;
                                  rc_publicId := Some publicId |})
                else ret None)
               (fun urlError => ret None);
      match hit with
      | Some r => ret (Some r)
      | None => probe_urls publicId rest
      end
  end.

(** [fetchResource(publicId)]. *)
Definition fetchResource (publicId : string) : M ResourceCheck :=
  try_catch
    (try_catch
       (result ← Cloudinary.api_resource publicId;
        ret {| rc_exists := true; rc_url := Some (secure_url result);
               rc_publicId := Some (public_id result) |})
       (fun apiError =>
          urls ← ((fun w => (Ok (urlFormats w publicId), w)) : M _);
          hit ← probe_urls publicId urls;
          match hit with
          | Some r => ret r
          | None => ret not_found
          end))
    (fun err => ret not_found).

(** ** index.js *)

(** *** multer configuration *)

(** [req.file] as multer's disk storage fills it. *)
Record MulterFile := {
  filename : string;
  originalname : string;
  mimetype : string;
  size : N;
  path : string
}.

(** The [fileFilter] of multer: [file.mimetype.startsWith('image/')]. *)
Definition fileFilter (mimetype : string) : bool := String.prefix "image/" mimetype.

(** [limits.fileSize]: 5 MiB. *)
Definition fileSize_limit : N := 5 * 1024 * 1024.

(** The [filename] callback of [multer.diskStorage]:
    [Date.now() + '-' + sanitizedFilename]. *)
Definition storage_filename (now : N) (originalname : string) : string :=
  Js.of_N now +:+ "-" +:+ Js.sanitize originalname.

(** What multer hands to the upload handler for a file it accepted. *)
Definition stored_file (w : World) (originalname mimetype : string) (size : N) : MulterFile :=
  let name := storage_filename (w_now w) originalname in
  {| filename := name; originalname := originalname; mimetype := mimetype;
     size := size; path := Path.join (UPLOAD_DIR w) name |}.

(** *** Responses *)

(** The record [POST /upload] answers with. *)
Record Image := {
  im_id : string;
  im_filename : string;
  im_originalName : string;
  im_path : string;
  im_cloudinaryUrl : option string;
  im_cloudinaryPublicId : option string;
  im_size : N;
  im_createdAt : N;
  im_status : Status
}.

(** The records [GET /local-images] answers with; the record of a file
    whose processing threw has neither [size] nor [createdAt]. *)
Record LocalImage := {
  li_id : string;
  li_filename : string;
  li_originalName : string;
  li_size : option N;
  li_createdAt : option N;
  li_path : string;
  li_cloudinaryUrl : option string;
  li_cloudinaryPublicId : option string;
  li_status : Status;
  li_canRestore : bool
}.

(** The [data] of the answer of [POST /restore/:filename]. *)
Record Restored := {
  rs_filename : string;
  rs_cloudinaryUrl : string;
  rs_cloudinaryPublicId : string;
  rs_status : Status
}.

Inductive Body :=
  | BError (error : string) (details : option string)
  | BImage (image : Image)
  | BImages (imageFiles : list LocalImage)
  | BRestored (message : string) (data : Restored).

Record Response := { code : nat; body : Body }.

(** [res.json(b)] and [res.status(c).json(b)]. *)
Definition json (b : Body) : M Response := mret {| code := 200; body := b |}.
Definition status_json (c : nat) (b : Body) : M Response := mret {| code := c; body := b |}.

Definition clock : M N := fun w => (Ok (w_now w), w).

(** *** POST /upload *)

Definition maxRetries : nat := 3.

(** The [while (retryCount < maxRetries)] loop.  [Some r] is leaving it by
    [break] with [cloudinaryResult = r]; [None] is leaving it because the
    condition is false, with [cloudinaryResult] still undefined. *)
Fixpoint upload_retry (fuel : nat) (file : MulterFile) (retryCount : nat)
  : M (option UploadResult) :=
  if (retryCount <? maxRetries)%nat then
    match fuel with
    | O => out_of_fuel
    | S fuel' =>
        try_catch
          (cloudinaryResult ← uploadImage (path file) (originalname file);
           mret (Some cloudinaryResult))
          (fun err =>
             let retryCount := S retryCount in
             if (retryCount =? maxRetries)%nat then
               throw (Error ("Failed to upload to Cloudinary after "
                             +:+ Js.of_N (N.of_nat maxRetries) +:+ " attempts: "
                             +:+ message err))
             else
               sleep (1000 * retryCount);;
               upload_retry fuel' file retryCount)
    end
  else mret None.

(** The clean-up of the [catch] of the upload handler:
    [if (req.file && req.file.path && fs.existsSync(req.file.path))] then
    [unlinkSync] in a [try] of its own. *)
Definition cleanup_local_file (req_file : option MulterFile) : M unit :=
  match req_file with
  | Some file =>
      if negb (String.eqb (path file) EmptyString) then
        there ← Fs.existsSync (path file);
        if (there : bool)
        then try_catch (Fs.unlinkSync (path file)) (fun cleanupErr => mret tt)
        else mret tt
      else mret tt
  | None => mret tt
  end.

Definition upload_handler (req_file : option MulterFile) : M Response :=
  try_catch
    (match req_file with
     | None => status_json 400 (BError "No file uploaded" None)
     | Some file =>
         saved ← Fs.existsSync (path file);
         if negb saved then status_json 500 (BError "Failed to save file locally" None)
         else
           left ← upload_retry maxRetries file 0;
           match left with
           | None => throw (TypeError "Cannot read properties of undefined (reading 'secure_url')")
           | Some cloudinaryResult =>
               now ← clock;
               json (BImage
                 {| im_id := filename file;
                    im_filename := filename file;
                    im_originalName := originalname file;
                    im_path := "/uploads/" +:+ filename file;
                    im_cloudinaryUrl := Some (secure_url cloudinaryResult);
                    im_cloudinaryPublicId := Some (public_id cloudinaryResult);
                    im_size := size file;
                    im_createdAt := now;
                    im_status := available |})
           end
     end)
    (fun error =>
       cleanup_local_file req_file;;
       status_json 500 (BError "Failed to upload image" (Some (message error)))).

(** *** GET /local-images *)

Definition image_extensions : list string := [".jpg"; ".jpeg"; ".png"; ".gif"; ".webp"].

(** The predicate of the final [images.filter]. *)
Definition is_image_name (name : string) : bool :=
  Js.includes image_extensions (Js.toLowerCase (Path.extname name)).

(** The identifier tried first: the text after the first [-], cut at its
    first dot. *)
Definition publicId_of (filename : string) : string :=
  let parts := Js.split "-" filename in
  let rest := Js.join "-" (Js.slice1 parts) in
  Js.first (Js.split "." rest).

(** The identifier tried second: [filename.split('.')[0]]. *)
Definition publicId_with_timestamp (filename : string) : string :=
  Js.first (Js.split "." filename).

(** The record of the [catch] of the per-file callback. *)
Definition fault_record (filename : string) : LocalImage :=
  {| li_id := filename; li_filename := filename; li_originalName := filename;
     li_size := None; li_createdAt := None;
     li_path := "/uploads/" +:+ filename;
     li_cloudinaryUrl := None; li_cloudinaryPublicId := None;
     li_status := missing; li_canRestore := true |}.

(** The callback of [files.map(async (filename) => ...)]. *)
Definition process_file (uploadsDir filename : string) : M LocalImage :=
  try_catch
    (let filePath := Path.join uploadsDir filename in
     stats ← Fs.stat filePath;
     let publicId := publicId_of filename in
     cloudinaryResult ← fetchResource publicId;
     found ← (if negb (rc_exists cloudinaryResult) then
                cloudinaryResultWithTimestamp ← fetchResource (publicId_with_timestamp filename);
                if rc_exists cloudinaryResultWithTimestamp then
                  mret (Some
                    {| li_id := filename; li_filename := filename; li_originalName := filename;
                       li_size := Some (Fs.st_size stats);
                       li_createdAt := Some (Fs.st_birthtime stats);
                       li_path := "/uploads/" +:+ filename;
                       li_cloudinaryUrl := rc_url cloudinaryResultWithTimestamp;
                       li_cloudinaryPublicId := rc_publicId cloudinaryResultWithTimestamp;
                       li_status := available; li_canRestore := false |})
                else mret None
              else mret None);
     match found with
     | Some early => mret early
     | None =>
         localFileExists ← try_catch (Fs.access_R_OK filePath;; mret true)
                                      (fun _ => mret false);
         mret {| li_id := filename; li_filename := filename; li_originalName := filename;
                 li_size := Some (Fs.st_size stats);
                 li_createdAt := Some (Fs.st_birthtime stats);
                 li_path := "/uploads/" +:+ filename;
                 li_cloudinaryUrl := rc_url cloudinaryResult;
                 li_cloudinaryPublicId := rc_publicId cloudinaryResult;
                 li_status := if rc_exists cloudinaryResult then available else missing;
                 li_canRestore := negb (rc_exists cloudinaryResult) && localFileExists |}
     end)
    (fun err => mret (fault_record filename)).

(** [Promise.all(files.map(f))]: the callbacks only read the two stores, so
    they are run one after the other, in the order of [files]. *)
Fixpoint map_all {A B} (f : A -> M B) (files : list A) : M (list B) :=
  match files with
  | [] => mret []
  | x :: rest =>
      y ← f x;
      ys ← map_all f rest;
      mret (y :: ys)
  end.

Definition list_handler : M Response :=
  try_catch
    (uploadsDir ← ((fun w => (Ok (Path.join (w_dirname w) "uploads"), w)) : M string);
     there ← Fs.existsSync uploadsDir;
     (if negb there then Fs.mkdirSync uploadsDir else mret tt);;
     files ← Fs.readdir uploadsDir;
     images ← map_all (process_file uploadsDir) files;
     let imageFiles := List.filter (fun file => is_image_name (li_filename file)) images in
     json (BImages imageFiles))
    (fun error =>
       status_json 500 (BError "Failed to list local images" (Some (message error)))).

(** *** POST /restore/:filename *)

Definition restore_handler (filename : string) : M Response :=
  try_catch
    (localPath ← ((fun w => (Ok (Path.join3 (w_dirname w) "uploads" filename), w))
                  : M string);
     there ← Fs.existsSync localPath;
     if negb there then status_json 404 (BError "Local image file not found" None)
     else
       result ← uploadImage localPath filename;
       json (BRestored "Image restored to Cloudinary"
               {| rs_filename := filename;
                  rs_cloudinaryUrl := secure_url result;
                  rs_cloudinaryPublicId := public_id result;
                  rs_status := available |}))
    (fun err => status_json 500 (BError "Failed to restore image" (Some (message err)))).

(** ** Test worlds *)

Definition plain_file : FileMeta :=
  {| fm_size := 2048; fm_birthtime := 1700000000000; fm_readable := true; fm_locked := false;
     fm_directory := false; fm_format := "png" |}.

Definition world0 : World :=
  {| w_dirname := "/srv/app"; w_cloud_name := "demo"; w_now := 1700000000000;
     w_dir := DirOk ["1700000000000-cat.png"; "1700000000001-my.photo.jpg"; "notes.txt"];
     w_files := {[ "/srv/app/uploads/1700000000000-cat.png" := plain_file;
                   "/srv/app/uploads/notes.txt" := plain_file ]};
     w_cloud := {[ "cat" := "https://res.cloudinary.com/demo/image/upload/v1/cat.png" ]};
     w_cdn := ∅; w_version := 2; w_faults := []; w_log := [] |}.

(** * The vocabulary of the statements

    Functions of the world that say what a call does, the schedules and
    ladders of the claims' words, and the worlds of the examples. *)

(** ** fetchResource *)

(** The claim's ladder of presence probes: the URLs are tried from left to
    right, each failed probe (a negative answer or a fault) is followed by
    the next URL, and the first successful one ends the ladder. *)
Inductive probe_ladder : list string -> list Event -> option string -> Prop :=
  | ladder_end : probe_ladder [] [] None
  | ladder_hit url rest : probe_ladder (url :: rest) [EvHead url HeadOk] (Some url)
  | ladder_miss url rest reply evs hit :
      reply <> HeadOk ->
      probe_ladder rest evs hit ->
      probe_ladder (url :: rest) (EvHead url reply :: evs) hit.

(** The candidate URLs in the claim's words: the identifier with no
    extension, then [.jpg], then [.png]. *)
Definition candidate_urls (w : World) (publicId : string) : list string :=
  map (fun ext => delivery_url w publicId +:+ ext) [EmptyString; ".jpg"; ".png"].

(** Only the log and the fault script differ between two worlds. *)
Definition same_stores (w w' : World) : Prop :=
  w_dirname w' = w_dirname w /\ w_cloud_name w' = w_cloud_name w /\
  w_now w' = w_now w /\ w_dir w' = w_dir w /\ w_files w' = w_files w /\
  w_cloud w' = w_cloud w /\ w_cdn w' = w_cdn w /\ w_version w' = w_version w.

Ltac unfold_monad :=
  unfold sleep, json, status_json in *;
  unfold mbind, mret, M_bind, M_ret, bind, ret, throw, try_catch, record,
    next_fault, clock, out_of_fuel in *.

Ltac unfold_setters :=
  unfold set_log, set_faults, set_version, set_cdn, set_cloud, set_files, set_dir in *;
  simpl in *.

(** Symbolic execution of the primitives on a world given by its fields. *)
Ltac run :=
  unfold fetch_head, Cloudinary.api_resource, Cloudinary.uploader_upload,
    Fs.existsSync, Fs.mkdirSync, Fs.readdir, Fs.stat, Fs.access_R_OK, Fs.unlinkSync,
    on_disk in *;
  unfold_monad; unfold_setters.

(** What a call that only probes does to the world: it adds events to
    the log and consumes a part of the fault script. *)
Definition advance (evs : list Event) (fl : list bool) (w : World) : World :=
  set_log (w_log w ++ evs) (set_faults fl w).

Definition found (url publicId : string) : ResourceCheck :=
  {| rc_exists := true; rc_url := Some url; rc_publicId := Some publicId |}.

(** What [fetchResource] answers after a ladder that ended with [hit]. *)
Definition ladder_answer (publicId : string) (hit : option string) : ResourceCheck :=
  match hit with
  | Some url => found url publicId
  | None => not_found
  end.

(** A world in which the remote store knows no ["cat"], the first presence
    probe meets a network fault and the second one is answered. *)
Definition flaky_world : World :=
  {| w_dirname := "/srv/app"; w_cloud_name := "demo"; w_now := 1700000000000;
     w_dir := DirOk []; w_files := ∅; w_cloud := ∅;
     w_cdn := {[ "https://res.cloudinary.com/demo/image/upload/cat.jpg" ]};
     w_version := 2; w_faults := [false; true]; w_log := [] |}.

(** ** uploadImage *)

(** The remote key [uploadImage] asks for: [originalName.split('.')[0]]. *)
Definition remote_key (originalName : string) : string :=
  Js.first (Js.split "." originalName).

(** There is a regular file at [p] whose bytes can be read. *)
Definition uploadable (w : World) (p : string) : bool :=
  match w_files w !! p with
  | Some m => fm_readable m && negb (fm_directory m)
  | None => false
  end.

(** Whether the next upload of the file at [p] goes through. *)
Definition attempt_ok (w : World) (p : string) : bool :=
  negb (hd false (w_faults w)) && uploadable w p.

(** The URL that the next successful upload of the file at [p] under the
    key [key] is given. *)
Definition issued_url (w : World) (p key : string) : string :=
  match w_files w !! p with
  | Some m => Cloudinary.secure_url_of w m key
  | None => EmptyString
  end.

(** What a successful upload of [p] under [key] does to the remote side:
    the entry, the URLs that are served from then on, the next version. *)
Definition stored (p key : string) (w : World) : World :=
  set_version (N.succ (w_version w))
    (set_cdn (w_cdn w ∪ {[issued_url w p key]} ∪ list_to_set (Cloudinary.delivery_urls w key))
       (set_cloud (<[key := issued_url w p key]> (w_cloud w)) w)).

(** The world after one upload attempt of [p] under the key [key]. *)
Definition after_attempt (w : World) (p key : string) : World :=
  let w1 := advance [EvUpload p key (attempt_ok w p)] (tl (w_faults w)) w in
  if attempt_ok w p then stored p key w1 else w1.

Definition attempt_error (w : World) (p : string) : JsError :=
  if hd false (w_faults w) then NetworkFault else Cloudinary.read_error w p.

(** ** The retry loop of POST /upload *)

(** The outcomes of the attempts the loop makes when at most [n] attempts
    are left: it stops at the first success. *)
Fixpoint outcomes_of (n : nat) (faults : list bool) (disk : bool) : list bool :=
  match n with
  | O => []
  | S n' =>
      if negb (hd false faults) && disk then [true]
      else false :: outcomes_of n' (tl faults) disk
  end.

Definition attempt_outcomes (w : World) (p : string) : list bool :=
  outcomes_of maxRetries (w_faults w) (uploadable w p).

(** The claim's schedule: attempt number [k], and after a failed attempt
    that is not the last one a pause of [k] time units before the next. *)
Definition time_unit : nat := 1000.

Fixpoint schedule (p key : string) (k : nat) (outcomes : list bool) : list Event :=
  match outcomes with
  | [] => []
  | [ok] => [EvUpload p key ok]
  | ok :: rest => EvUpload p key ok :: EvSleep (k * time_unit) :: schedule p key (S k) rest
  end.

Definition succeeded (outcomes : list bool) : bool := existsb id outcomes.

(** The world when the loop is left. *)
Definition after_retries (w : World) (p key : string) : World :=
  let outcomes := attempt_outcomes w p in
  let w1 := advance (schedule p key 1 outcomes) (drop (length outcomes) (w_faults w)) w in
  if succeeded outcomes then stored p key w1 else w1.

(** The error of the third attempt. *)
Definition last_error (w : World) (p : string) : JsError :=
  if hd false (drop 2 (w_faults w)) then NetworkFault else Cloudinary.read_error w p.

(** ** POST /upload *)

(** [fs.existsSync(p)] as a function of the world. *)
Definition exists_now (w : World) (p : string) : bool :=
  on_disk w p || is_directory w p.

(** [unlinkSync] throws for this file. *)
Definition locked (w : World) (p : string) : bool :=
  match w_files w !! p with
  | Some m => fm_locked m || fm_directory m
  | None => false
  end.

Definition is_unlink (e : Event) : Prop :=
  match e with
  | EvUnlink _ _ => True
  | _ => False
  end.

(** The record of a successful upload. *)
Definition uploaded_image (w : World) (file : MulterFile) : Image :=
  {| im_id := filename file;
     im_filename := filename file;
     im_originalName := originalname file;
     im_path := "/uploads/" +:+ filename file;
     im_cloudinaryUrl := Some (issued_url w (path file) (remote_key (originalname file)));
     im_cloudinaryPublicId := Some (remote_key (originalname file));
     im_size := size file;
     im_createdAt := w_now w;
     im_status := available |}.

(** A file that cannot be unlinked, and a network that is down for three
    calls. *)
Definition locked_file : FileMeta :=
  {| fm_size := 2048; fm_birthtime := 1700000000000; fm_readable := true; fm_locked := true;
     fm_directory := false; fm_format := "png" |}.

Definition locked_world : World :=
  {| w_dirname := "/srv/app"; w_cloud_name := "demo"; w_now := 1700000000000;
     w_dir := DirOk ["1700000000000-cat.png"];
     w_files := {[ "/srv/app/uploads/1700000000000-cat.png" := locked_file ]};
     w_cloud := ∅; w_cdn := ∅; w_version := 2; w_faults := [true; true; true]; w_log := [] |}.

Definition cat_upload : MulterFile := stored_file locked_world "cat.png" "image/png" 2048.

(** A network that fails twice and then works. *)
Definition two_faults_world : World :=
  {| w_dirname := "/srv/app"; w_cloud_name := "demo"; w_now := 1700000000000;
     w_dir := DirOk ["1700000000000-cat.png"];
     w_files := {[ "/srv/app/uploads/1700000000000-cat.png" := plain_file ]};
     w_cloud := ∅; w_cdn := ∅; w_version := 2; w_faults := [true; true]; w_log := [] |}.

(** ** The remote key of an upload *)

(** The remote key in the claim's words: the name without its extension,
    the extension being what [path.extname] gives. *)
Definition without_extension (name : string) : string :=
  String.substring 0 (String.length name - String.length (Path.extname name)) name.

(** [s] has no character [c]. *)
Fixpoint lacks (c : ascii) (s : string) : bool :=
  match s with
  | EmptyString => true
  | String x rest => negb (Ascii.eqb x c) && lacks c rest
  end.

(** ** Paths *)


(** An absolute path. *)
Definition starts_with_slash (p : string) : bool :=
  match p with
  | String c _ => Ascii.eqb c "/"
  | EmptyString => false
  end.

(** ** GET /local-images: one file *)

(** The record of the normal path, from the answer [r] of the probe that
    decided and the readability of the local file. *)
Definition listed (name : string) (m : FileMeta) (r : ResourceCheck) : LocalImage :=
  {| li_id := name; li_filename := name; li_originalName := name;
     li_size := Some (fm_size m); li_createdAt := Some (fm_birthtime m);
     li_path := "/uploads/" +:+ name;
     li_cloudinaryUrl := rc_url r; li_cloudinaryPublicId := rc_publicId r;
     li_status := if rc_exists r then available else missing;
     li_canRestore := negb (rc_exists r) && fm_readable m |}.

(** ** GET /local-images: the whole scan *)

(** What the scan makes of one file of a world whose stores are those of
    [w]: the fault record when the file cannot be [stat]ed, a record of the
    normal path otherwise. *)
Definition classified (w : World) (dir : string) (r : LocalImage) : Prop :=
  match w_files w !! Path.join dir (li_filename r) with
  | None => r = fault_record (li_filename r)
  | Some m => exists rc, r = listed (li_filename r) m rc
  end.

(** A directory read just before two of its three files went away. *)
Definition vanished_world : World :=
  {| w_dirname := "/srv/app"; w_cloud_name := "demo"; w_now := 1700000000000;
     w_dir := DirOk ["1700000000000-cat.png"; "1700000000002-dog.png"; "notes.txt"];
     w_files := {[ "/srv/app/uploads/1700000000000-cat.png" := plain_file ]};
     w_cloud := {[ "cat" := "https://res.cloudinary.com/demo/image/upload/v1/cat.png" ]};
     w_cdn := ∅; w_version := 2; w_faults := []; w_log := [] |}.

Definition cat_record : LocalImage :=
  {| li_id := "1700000000000-cat.png"; li_filename := "1700000000000-cat.png";
     li_originalName := "1700000000000-cat.png";
     li_size := Some 2048%N; li_createdAt := Some 1700000000000%N;
     li_path := "/uploads/1700000000000-cat.png";
     li_cloudinaryUrl := Some "https://res.cloudinary.com/demo/image/upload/v1/cat.png";
     li_cloudinaryPublicId := Some "cat";
     li_status := available; li_canRestore := false |}.

(** ** The two identifier candidates *)

Definition is_lookup (e : Event) : bool :=
  match e with
  | EvResource _ _ => true
  | _ => false
  end.

(** An uploaded [my.photo.jpg], stored locally and unknown remotely. *)
Definition dotted_world : World :=
  {| w_dirname := "/srv/app"; w_cloud_name := "demo"; w_now := 1700000000001;
     w_dir := DirOk ["1700000000001-my.photo.jpg"];
     w_files := {[ "/srv/app/uploads/1700000000001-my.photo.jpg" := plain_file ]};
     w_cloud := ∅; w_cdn := ∅; w_version := 2; w_faults := []; w_log := [] |}.

(** ** Restore, then list *)

(** A file that is stored locally and is missing remotely. *)
Definition missing_world : World :=
  {| w_dirname := "/srv/app"; w_cloud_name := "demo"; w_now := 1700000000000;
     w_dir := DirOk ["1700000000000-cat.png"];
     w_files := {[ "/srv/app/uploads/1700000000000-cat.png" := plain_file ]};
     w_cloud := ∅; w_cdn := ∅; w_version := 2; w_faults := []; w_log := [] |}.

(** * The rest of the two files

    The start-up check, [deleteResource] and [checkCloudinaryImage] of
    cloudinary.js, and the origin callback of the CORS configuration. *)

(** ** cloudinary.js: the start-up check *)

Definition required_env : list string :=
  ["CLOUDINARY_CLOUD_NAME"; "CLOUDINARY_API_KEY"; "CLOUDINARY_API_SECRET"].

(** [!process.env[key]]: the variable is unset or empty. *)
Definition env_missing (env : gmap string string) (key : string) : bool :=
  match env !! key with
  | Some value => String.eqb value EmptyString
  | None => true
  end.

(** The [forEach] over the required keys, which throws at the first
    missing one. *)
Fixpoint ensure_env (env : gmap string string) (keys : list string) : outcome unit :=
  match keys with
  | [] => Ok tt
  | key :: rest =>
      if env_missing env key
      then Throw (Error ("Missing required environment variable: " +:+ key))
      else ensure_env env rest
  end.

(** ** cloudinary.js: deleteResource *)

Record DestroyResult := { dr_result : string }.

(** [cloudinary.uploader.destroy(publicId)]: removes the object from the
    store; an identifier the store does not know is answered, not thrown.
    The call does not ask for an invalidation, so what the CDN serves is
    left as it is. *)
Definition uploader_destroy (publicId : string) : M DestroyResult :=
  fault ← next_fault;
  if (fault : bool) then record (EvDestroy publicId false);; throw NetworkFault
  else (fun w =>
    match w_cloud w !! publicId with
    | Some _ =>
        (Ok {| dr_result := "ok" |},
         set_log (w_log w ++ [EvDestroy publicId true])
           (set_cloud (delete publicId (w_cloud w)) w))
    | None =>
        (Ok {| dr_result := "not found" |},
         set_log (w_log w ++ [EvDestroy publicId false]) w)
    end) : M _.

(** [deleteResource(publicId)]. *)
Definition deleteResource (publicId : string) : M DestroyResult :=
  try_catch
    (result ← uploader_destroy publicId;
     ret result)
    (fun err => throw err).

(** ** cloudinary.js: checkCloudinaryImage *)

(** [s.includes(t)] on strings. *)
Fixpoint includes_str (t s : string) : bool :=
  String.prefix t s
  || match s with
     | EmptyString => false
     | String _ rest => includes_str t rest
     end.

(** [fetch(url, { method: "GET", ... })], giving [resp.ok]; [answers] are
    the URLs that answer a GET with 2xx. *)
Definition fetch_get (answers : gset string) (url : string) : M bool :=
  fault ← next_fault;
  if (fault : bool) then record (EvGet url HeadFault);; throw NetworkFault
  else if bool_decide (url ∈ answers)
       then record (EvGet url HeadOk);; mret true
       else record (EvGet url HeadNotOk);; mret false.

(** The identifier [checkCloudinaryImage] takes from a URL:
    [urlParts[urlParts.length - 1].split('.')[0]]. *)
Definition publicId_of_url (url : string) : string :=
  let urlParts := Js.split "/" url in
  Js.first (Js.split "." (default EmptyString (last urlParts))).

(** [checkCloudinaryImage(url)]; a null or undefined [url] is the empty
    string. *)
Definition checkCloudinaryImage (answers : gset string) (url : string) : M bool :=
  try_catch
    (if String.eqb url EmptyString || negb (includes_str "cloudinary.com" url)
     then mret false
     else
       let publicId := publicId_of_url url in
       if String.eqb publicId EmptyString then mret false
       else
         try_catch
           (resource ← Cloudinary.api_resource publicId;
            mret true)
           (fun apiError =>
              ok ← fetch_head url;
              if (ok : bool) then mret true
              else
                getOk ← fetch_get answers url;
                if (getOk : bool) then mret true else mret false))
    (fun error => mret false).

(** ** The CORS origin callback *)

(** [origin.replace(/\/$/, '')]: one slash at the very end is removed. *)
Fixpoint strip_trailing_slash (s : string) : string :=
  match s with
  | EmptyString => EmptyString
  | String c rest =>
      match rest with
      | EmptyString => if Ascii.eqb c "/" then EmptyString else s
      | _ => String c (strip_trailing_slash rest)
      end
  end.

Definition allowedOrigins : list string :=
  ["https://cloudapp-frontend-kohl.vercel.app"; "http://localhost:5173"].

(** The [origin] function of the CORS options: [Ok true] is
    [callback(null, true)], [Throw] is [callback(new Error(...))];
    [None] is a request without an Origin header. *)
Definition cors_origin (origin : option string) : outcome bool :=
  let cleanOrigin := option_map strip_trailing_slash origin in
  let no_origin := match origin with
                   | None => true
                   | Some o => String.eqb o EmptyString
                   end in
  if no_origin
     || match cleanOrigin with
        | Some clean => Js.includes allowedOrigins clean
        | None => false
        end
  then Ok true
  else Throw (Error "Not allowed by CORS").

(** ** Vocabulary of the further statements *)

(** What the probes find when the network is up. *)
Definition probe_now (w : World) (urls : list string) : option string :=
  List.find (fun url => bool_decide (url ∈ w_cdn w)) urls.

(** The answer of [fetchResource] when the network is up. *)
Definition check_now (w : World) (publicId : string) : ResourceCheck :=
  match w_cloud w !! publicId with
  | Some url => found url publicId
  | None => ladder_answer publicId (probe_now w (urlFormats w publicId))
  end.

(** The record of one file when the network is up. *)
Definition classify_now (w : World) (dir name : string) : LocalImage :=
  match w_files w !! Path.join dir name with
  | None => fault_record name
  | Some m =>
      let first := check_now w (publicId_of name) in
      if rc_exists first then listed name m first
      else
        let second := check_now w (publicId_with_timestamp name) in
        if rc_exists second then listed name m second else listed name m first
  end.

(** Every character of [s] satisfies [ok]. *)
Fixpoint all_chars (ok : ascii -> bool) (s : string) : bool :=
  match s with
  | EmptyString => true
  | String c rest => ok c && all_chars ok rest
  end.

(** A lookup or a presence probe. *)
Definition is_probe (e : Event) : Prop :=
  match e with
  | EvResource _ _ | EvHead _ _ => True
  | _ => False
  end.

(** A call that only reads: a lookup, a HEAD or a GET. *)
Definition is_read (e : Event) : Prop :=
  match e with
  | EvResource _ _ | EvHead _ _ | EvGet _ _ => True
  | _ => False
  end.

(** The two shapes of an answer of [fetchResource publicId]. *)
Definition answer_ok (publicId : string) (r : ResourceCheck) : Prop :=
  (exists url, r = found url publicId) \/ r = not_found.

(** What the scan can make of the file [name] in the stores of [w]. *)
Definition record_ok (w : World) (dir name : string) (r : LocalImage) : Prop :=
  match w_files w !! Path.join dir name with
  | None => r = fault_record name
  | Some m =>
      exists publicId rc,
        r = listed name m rc /\ answer_ok publicId rc
        /\ (publicId = publicId_of name \/ publicId = publicId_with_timestamp name)
  end.

(** What every record of the list has in common: the three names agree,
    the path is the public one, and the remote fields are filled exactly
    when the status is available, in which case nothing is to restore. *)
Definition record_shape (r : LocalImage) : Prop :=
  li_id r = li_filename r
  /\ li_originalName r = li_filename r
  /\ li_path r = "/uploads/" +:+ li_filename r
  /\ (li_status r = available <-> is_Some (li_cloudinaryUrl r))
  /\ (li_status r = available <-> is_Some (li_cloudinaryPublicId r))
  /\ (li_status r = available -> li_canRestore r = false)
  /\ (forall publicId, li_cloudinaryPublicId r = Some publicId ->
        publicId = publicId_of (li_filename r)
        \/ publicId = publicId_with_timestamp (li_filename r)).

(** An accepted upload of [my cat.png], stored locally under the name
    that the storage callback made of it. *)
Definition spaced_world : World :=
  {| w_dirname := "/srv/app"; w_cloud_name := "demo"; w_now := 1700000000000;
     w_dir := DirOk ["1700000000000-my_cat.png"];
     w_files := {[ "/srv/app/uploads/1700000000000-my_cat.png" := plain_file ]};
     w_cloud := ∅; w_cdn := ∅; w_version := 2; w_faults := []; w_log := [] |}.

Definition jpeg_file : FileMeta :=
  {| fm_size := 2048; fm_birthtime := 1700000000000; fm_readable := true; fm_locked := false;
     fm_directory := false; fm_format := "jpg" |}.

(** Two accepted uploads, [cat.png] and [cat.jpg], stored locally. *)
Definition twin_world : World :=
  {| w_dirname := "/srv/app"; w_cloud_name := "demo"; w_now := 1700000000000;
     w_dir := DirOk ["1700000000000-cat.png"; "1700000000000-cat.jpg"];
     w_files := {[ "/srv/app/uploads/1700000000000-cat.png" := plain_file;
                   "/srv/app/uploads/1700000000000-cat.jpg" := jpeg_file ]};
     w_cloud := ∅; w_cdn := ∅; w_version := 2; w_faults := []; w_log := [] |}.

(** An application directory with its entry point beside the uploads
    directory. *)
Definition app_world : World :=
  {| w_dirname := "/srv/app"; w_cloud_name := "demo"; w_now := 1700000000000;
     w_dir := DirOk ["1700000000000-cat.png"];
     w_files := {[ "/srv/app/uploads/1700000000000-cat.png" := plain_file;
                   "/srv/app/index.js" := plain_file ]};
     w_cloud := ∅; w_cdn := ∅; w_version := 2; w_faults := []; w_log := [] |}.

(** * Properties *)

(** ** The string and path functions on examples *)

Example split_examples :
  Js.split "-" "1700000000000-my-cat.photo.png" = ["1700000000000"; "my"; "cat.photo.png"]
  /\ Js.split "." EmptyString = [EmptyString]
  /\ Js.split "." "a..b." = ["a"; EmptyString; "b"; EmptyString]
  /\ Js.join "-" (Js.slice1 (Js.split "-" "1700000000000-my-cat.photo.png"))
     = "my-cat.photo.png"
  /\ Js.join "-" (Js.slice1 (Js.split "-" "nodash.png")) = EmptyString.
Proof. repeat split. Qed.

Example extname_examples :
  map Path.extname
    ["index.html"; "index.coffee.md"; "index."; "index"; ".index"; ".index.md"; "..";
     "a/b.c/d"; "a/b.png/"; "1-a.PNG"]
  = [".html"; ".md"; "."; EmptyString; EmptyString; ".md"; EmptyString; EmptyString;
     ".png"; ".PNG"].
Proof. reflexivity. Qed.

Example join_examples :
  Path.join "/srv/app" "uploads" = "/srv/app/uploads"
  /\ Path.join "/srv/app/uploads" "1-cat.png" = "/srv/app/uploads/1-cat.png"
  /\ map (Path.join3 "/srv/app" "uploads")
       ["1-cat.png"; "../index.js"; "."; ".."; "../../../.."; "a//b/"; "./x/../y"; EmptyString]
     = ["/srv/app/uploads/1-cat.png"; "/srv/app/index.js"; "/srv/app/uploads"; "/srv/app";
        "/"; "/srv/app/uploads/a/b/"; "/srv/app/uploads/y"; "/srv/app/uploads"]
  /\ map Path.normalize [EmptyString; "."; "./"; "a/../.."; "../a/./b/"; "//a"; "/.."; "a/b/../../.."]
     = ["."; "."; "./"; ".."; "../a/b/"; "/a"; "/"; ".."]
  /\ Path.join EmptyString EmptyString = "."
  /\ map Path.untrail ["/"; "/srv/app/"; "/srv/app"; EmptyString] = ["/"; "/srv/app"; "/srv/app"; EmptyString].
Proof. repeat split. Qed.

Example fileFilter_examples :
  map fileFilter ["image/png"; "image/svg+xml"; "text/plain"; "application/pdf"]
  = [true; true; false; false].
Proof. reflexivity. Qed.

Example storage_filename_example :
  storage_filename 1700000000000 "my photo (1).JPG" = "1700000000000-my_photo__1_.JPG".
Proof. reflexivity. Qed.

(** ** fetchResource *)

Lemma same_stores_refl w : same_stores w w.
Proof. repeat split. Qed.

Lemma same_stores_trans w1 w2 w3 :
  same_stores w1 w2 -> same_stores w2 w3 -> same_stores w1 w3.
Proof. unfold same_stores. intuition congruence. Qed.

Lemma append_empty s : s +:+ EmptyString = s.
Proof.
  induction s as [|c s IH]; [done|].
  change (String c (s +:+ EmptyString) = String c s). by rewrite IH.
Qed.

Lemma urlFormats_candidates w publicId :
  urlFormats w publicId = candidate_urls w publicId.
Proof. unfold urlFormats, candidate_urls. simpl. by rewrite append_empty. Qed.

Lemma advance_advance evs1 fl1 evs2 fl2 w :
  advance evs2 fl2 (advance evs1 fl1 w) = advance (evs1 ++ evs2) fl2 w.
Proof. destruct w. unfold advance. unfold_setters. by rewrite <- app_assoc. Qed.

Lemma advance_same_stores evs fl w : same_stores w (advance evs fl w).
Proof. by destruct w. Qed.

Lemma advance_log evs fl w : w_log (advance evs fl w) = w_log w ++ evs.
Proof. by destruct w. Qed.

Lemma urlFormats_advance evs fl w publicId :
  urlFormats (advance evs fl w) publicId = urlFormats w publicId.
Proof. by destruct w. Qed.

(** One presence probe as a function of the world. *)
Lemma fetch_head_run url w :
  fetch_head url w
  = if hd false (w_faults w)
    then (Throw NetworkFault, advance [EvHead url HeadFault] (tl (w_faults w)) w)
    else if bool_decide (url ∈ w_cdn w)
         then (Ok true, advance [EvHead url HeadOk] (tl (w_faults w)) w)
         else (Ok false, advance [EvHead url HeadNotOk] (tl (w_faults w)) w).
Proof.
  destruct w as [dn cn now d fs c cdn ver fl lg].
  destruct fl as [|[|] fl]; unfold fetch_head, advance; run;
    by destruct (bool_decide (url ∈ cdn)).
Qed.

(** The probe loop: it never throws, touches only the log and the fault
    script, and its events form the ladder. *)
Lemma probe_urls_spec publicId urls w :
  exists hit evs fl,
    probe_urls publicId urls w
      = (Ok (option_map (fun url => {| rc_exists := true; rc_url := Some url;
                                        rc_publicId := Some publicId |}) hit),
         advance evs fl w)
    /\ probe_ladder urls evs hit.
Proof.
  revert w. induction urls as [|url rest IH]; intros w.
  - exists None, [], (w_faults w). split; [|constructor].
    destruct w. unfold advance. simpl. run. by rewrite app_nil_r.
  - cbn [probe_urls]. unfold_monad. rewrite fetch_head_run.
    destruct (hd false (w_faults w)); [|destruct (bool_decide (url ∈ w_cdn w))].
    + destruct (IH (advance [EvHead url HeadFault] (tl (w_faults w)) w))
        as (hit & evs & fl & Hrun & Hl).
      exists hit, (EvHead url HeadFault :: evs), fl.
      rewrite Hrun, advance_advance. split; [done|]. by constructor.
    + exists (Some url), [EvHead url HeadOk], (tl (w_faults w)).
      split; [done|]. constructor.
    + destruct (IH (advance [EvHead url HeadNotOk] (tl (w_faults w)) w))
        as (hit & evs & fl & Hrun & Hl).
      exists hit, (EvHead url HeadNotOk :: evs), fl.
      rewrite Hrun, advance_advance. split; [done|]. by constructor.
Qed.

(** The metadata lookup as a function of the world. *)
Lemma api_resource_run publicId w :
  Cloudinary.api_resource publicId w
  = if hd false (w_faults w)
    then (Throw NetworkFault, advance [EvResource publicId false] (tl (w_faults w)) w)
    else match w_cloud w !! publicId with
         | Some url =>
             (Ok {| secure_url := url; public_id := publicId |},
              advance [EvResource publicId true] (tl (w_faults w)) w)
         | None =>
             (Throw RemoteNotFound,
              advance [EvResource publicId false] (tl (w_faults w)) w)
         end.
Proof.
  destruct w as [dn cn now d fs c cdn ver fl lg].
  destruct fl as [|[|] fl]; unfold Cloudinary.api_resource, advance; run;
    by destruct (c !! publicId).
Qed.

(** What [fetchResource] does once the lookup has failed: the ladder. *)
Lemma fetchResource_fallback publicId w e fl0 :
  Cloudinary.api_resource publicId w
  = (Throw e, advance [EvResource publicId false] fl0 w) ->
  exists pevs hit fl,
    fetchResource publicId w
    = (Ok (ladder_answer publicId hit), advance (EvResource publicId false :: pevs) fl w)
    /\ probe_ladder (urlFormats w publicId) pevs hit.
Proof.
  intros Hapi.
  set (w1 := advance [EvResource publicId false] fl0 w) in *.
  destruct (probe_urls_spec publicId (urlFormats w1 publicId) w1)
    as (hit & pevs & fl & Hrun & Hl).
  exists pevs, hit, fl. split.
  - unfold fetchResource. unfold_monad. rewrite Hapi, Hrun.
    unfold w1. rewrite advance_advance. by destruct hit.
  - unfold w1 in Hl. by rewrite urlFormats_advance in Hl.
Qed.

(** [fetchResource] always returns; it changes only the log and the fault
    script; its calls are the lookup, then, when the lookup failed, the
    ladder over [urlFormats]. *)
Lemma fetchResource_spec publicId w :
  exists r evs fl,
    fetchResource publicId w = (Ok r, advance evs fl w)
    /\ ((exists url, evs = [EvResource publicId true]
                     /\ w_cloud w !! publicId = Some url /\ r = found url publicId)
        \/ (exists pevs hit, evs = EvResource publicId false :: pevs
                     /\ probe_ladder (urlFormats w publicId) pevs hit
                     /\ r = ladder_answer publicId hit)).
Proof.
  pose proof (api_resource_run publicId w) as Hapi.
  destruct (hd false (w_faults w));
    [| destruct (w_cloud w !! publicId) as [url|] eqn:Hc ].
  - destruct (fetchResource_fallback _ _ _ _ Hapi) as (pevs & hit & fl & Hrun & Hl).
    eexists _, _, fl. split; [exact Hrun|]. right. by exists pevs, hit.
  - exists (found url publicId), [EvResource publicId true], (tl (w_faults w)).
    split; [|left; by exists url].
    unfold fetchResource. unfold_monad. by rewrite Hapi.
  - destruct (fetchResource_fallback _ _ _ _ Hapi) as (pevs & hit & fl & Hrun & Hl).
    eexists _, _, fl. split; [exact Hrun|]. right. by exists pevs, hit.
Qed.

(** C3 (as amended): for every identifier, [fetchResource] first makes the
    metadata lookup; when the lookup fails (not found, or a fault) it probes
    the candidate URLs built from the identifier with no extension, then
    [.jpg], then [.png], in that order; a probe that answers negatively or
    meets a network fault is followed by the next URL, and the first URL
    that answers successfully is returned; when the lookup and every probe
    failed the answer is exists=false with null url and publicId.  In every
    case the function returns: no error reaches the caller. *)
Theorem fetchResource_probe_order publicId w :
  exists r w' evs,
    fetchResource publicId w = (Ok r, w')
    /\ same_stores w w'
    /\ w_log w' = w_log w ++ evs
    /\ ((exists url, evs = [EvResource publicId true] /\ r = found url publicId)
        \/ (exists pevs hit,
              evs = EvResource publicId false :: pevs
              /\ probe_ladder (candidate_urls w publicId) pevs hit
              /\ r = match hit with
                     | Some url => {| rc_exists := true; rc_url := Some url;
                                      rc_publicId := Some publicId |}
                     | None => {| rc_exists := false; rc_url := None;
                                  rc_publicId := None |}
                     end)).
Proof.
  destruct (fetchResource_spec publicId w) as (r & evs & fl & Hrun & Hcases).
  exists r, (advance evs fl w), evs.
  split; [done|]. split; [apply advance_same_stores|]. split; [apply advance_log|].
  destruct Hcases as [(url & -> & _ & ->) | (pevs & hit & -> & Hl & ->)].
  - left. by exists url.
  - right. exists pevs, hit. rewrite <- urlFormats_candidates.
    split; [done|]. split; [done|]. by destruct hit.
Qed.

(** C3, counterexample: a network-level fault occurs during the check (the
    first probe), and yet the answer is exists=true, with the URL of the
    second probe. *)
Lemma fetchResource_fault_then_hit :
  fst (fetchResource "cat" flaky_world)
    = Ok {| rc_exists := true;
            rc_url := Some "https://res.cloudinary.com/demo/image/upload/cat.jpg";
            rc_publicId := Some "cat" |}
  /\ w_log (snd (fetchResource "cat" flaky_world))
    = [ EvResource "cat" false;
        EvHead "https://res.cloudinary.com/demo/image/upload/cat" HeadFault;
        EvHead "https://res.cloudinary.com/demo/image/upload/cat.jpg" HeadOk ].
Proof. split; vm_compute; reflexivity. Qed.

(** ** uploadImage *)

Lemma faults_advance evs fl w : w_faults (advance evs fl w) = fl.
Proof. by destruct w. Qed.

Lemma uploadable_advance evs fl w p : uploadable (advance evs fl w) p = uploadable w p.
Proof. by destruct w. Qed.

Lemma issued_url_advance evs fl w p key :
  issued_url (advance evs fl w) p key = issued_url w p key.
Proof. by destruct w. Qed.

Lemma read_error_advance evs fl w p :
  Cloudinary.read_error (advance evs fl w) p = Cloudinary.read_error w p.
Proof. by destruct w. Qed.

Lemma log_snoc e w : set_log (w_log w ++ [e]) w = advance [e] (w_faults w) w.
Proof. by destruct w. Qed.

(** [uploadImage] makes exactly one upload call, under [remote_key], and
    passes its result or its error on. *)
Lemma uploadImage_run p originalName w :
  uploadImage p originalName w
  = (if attempt_ok w p
     then Ok {| secure_url := issued_url w p (remote_key originalName);
                public_id := remote_key originalName |}
     else Throw (attempt_error w p),
     after_attempt w p (remote_key originalName)).
Proof.
  unfold uploadImage, after_attempt, attempt_ok, attempt_error, uploadable, stored,
    issued_url, advance, remote_key.
  destruct w as [dn cn now d fs c cdn ver fl lg].
  destruct fl as [|[|] fl]; run; unfold Cloudinary.read_error; cbn [w_files];
    try reflexivity;
    (destruct (fs !! p) as [m|]; [destruct (fm_readable m && negb (fm_directory m))|]);
    reflexivity.
Qed.

(** ** The retry loop of POST /upload *)

Lemma outcomes_of_nonempty n faults disk : outcomes_of (S n) faults disk <> [].
Proof. simpl. by destruct (negb (hd false faults) && disk). Qed.

Lemma schedule_failed p key k outcomes :
  outcomes <> [] ->
  schedule p key k (false :: outcomes)
  = EvUpload p key false :: EvSleep (k * time_unit) :: schedule p key (S k) outcomes.
Proof. by destruct outcomes. Qed.

Lemma drop_tl {A} n (l : list A) : drop n (tl l) = drop (S n) l.
Proof. destruct l; [by destruct n | done]. Qed.

(** The loop from any of its states: with [retryCount] failures behind it
    and [fuel] iterations left before [maxRetries], it makes the attempts
    of [outcomes_of], numbered from [retryCount + 1], and is left by
    [break], by [throw] after the last attempt, or, with no iteration left,
    by its condition. *)
Lemma upload_retry_from file fuel retryCount w :
  retryCount + fuel = maxRetries ->
  let p := path file in
  let key := remote_key (originalname file) in
  let outcomes := outcomes_of fuel (w_faults w) (uploadable w p) in
  let w1 := advance (schedule p key (S retryCount) outcomes)
              (drop (length outcomes) (w_faults w)) w in
  upload_retry fuel file retryCount w
  = (if succeeded outcomes
     then Ok (Some {| secure_url := issued_url w p key; public_id := key |})
     else match fuel with
          | O => Ok None
          | S n => Throw (Error ("Failed to upload to Cloudinary after 3 attempts: "
                                 +:+ message (if hd false (drop n (w_faults w))
                                              then NetworkFault
                                              else Cloudinary.read_error w p)))
          end,
     if succeeded outcomes then stored p key w1 else w1).
Proof.
  cbv zeta. revert retryCount w.
  induction fuel as [|fuel IH]; intros retryCount w Hsum.
  - rewrite Nat.add_0_r in Hsum. subst retryCount.
    destruct w. cbn. unfold_monad. unfold advance. unfold_setters. by rewrite app_nil_r.
  - assert (Hlt : (retryCount <? maxRetries)%nat = true) by (apply Nat.ltb_lt; lia).
    cbn [upload_retry]. rewrite Hlt. unfold_monad. rewrite uploadImage_run.
    cbn [outcomes_of]. unfold after_attempt, attempt_ok, attempt_error.
    destruct (negb (hd false (w_faults w)) && uploadable w (path file)) eqn:Hok.
    + unfold succeeded. cbn [existsb id orb length schedule]. by destruct (w_faults w).
    + destruct fuel as [|fuel].
      * assert (Hlast : (S retryCount =? maxRetries)%nat = true)
          by (apply Nat.eqb_eq; lia).
        rewrite Hlast. unfold succeeded. cbn [outcomes_of existsb id orb length schedule].
        by destruct (w_faults w).
      * assert (Hmore : (S retryCount =? maxRetries)%nat = false)
          by (apply Nat.eqb_neq; lia).
        rewrite Hmore, log_snoc, advance_advance, faults_advance. rewrite IH by lia.
        rewrite faults_advance, uploadable_advance, issued_url_advance,
          read_error_advance, advance_advance.
        rewrite schedule_failed by apply outcomes_of_nonempty.
        unfold succeeded. cbn [existsb id orb length].
        rewrite !drop_tl. unfold time_unit.
        by rewrite (Nat.mul_comm 1000 (S retryCount)).
Qed.

(** The loop, run with [maxRetries] units of fuel, never runs out of fuel
    and never leaves by its condition: it breaks with a result or throws. *)
Lemma upload_retry_run file w :
  upload_retry maxRetries file 0 w
  = (if succeeded (attempt_outcomes w (path file))
     then Ok (Some {| secure_url := issued_url w (path file) (remote_key (originalname file));
                      public_id := remote_key (originalname file) |})
     else Throw (Error ("Failed to upload to Cloudinary after 3 attempts: "
                        +:+ message (last_error w (path file)))),
     after_retries w (path file) (remote_key (originalname file))).
Proof. by rewrite upload_retry_from. Qed.

(** ** POST /upload *)

Lemma existsSync_run p w : Fs.existsSync p w = (Ok (exists_now w p), w).
Proof. reflexivity. Qed.

(** [unlinkSync] as a function of the world. *)
Lemma unlinkSync_run p w :
  Fs.unlinkSync p w
  = match w_files w !! p with
    | Some m =>
        if fm_locked m || fm_directory m
        then (Throw (FsError "EPERM"), advance [EvUnlink p false] (w_faults w) w)
        else (Ok tt,
              advance [EvUnlink p true] (w_faults w)
                (set_dir (Fs.drop_name w p (w_dir w)) (set_files (delete p (w_files w)) w)))
    | None => (Throw (FsError "ENOENT"), advance [EvUnlink p false] (w_faults w) w)
    end.
Proof.
  unfold Fs.unlinkSync. destruct (w_files w !! p) as [m|];
    [destruct (fm_locked m || fm_directory m)|]; by destruct w.
Qed.

(** The clean-up never throws; when the file is still there afterwards, it
    is a locked file, the deletion was tried and it failed. *)
Lemma cleanup_spec file w :
  path file <> EmptyString ->
  exists w',
    cleanup_local_file (Some file) w = (Ok tt, w')
    /\ (on_disk w' (path file) = true ->
        locked w (path file) = true /\ w_log w' = w_log w ++ [EvUnlink (path file) false]).
Proof.
  intros Hp. apply String.eqb_neq in Hp.
  unfold cleanup_local_file. rewrite Hp. cbn [negb].
  unfold_monad. rewrite existsSync_run.
  destruct (exists_now w (path file)) eqn:Hex.
  - rewrite unlinkSync_run. unfold locked, on_disk.
    destruct (w_files w !! path file) as [m|] eqn:Hf.
    + destruct (fm_locked m || fm_directory m).
      * eexists; split; [reflexivity|]. intros _. split; [done | by destruct w].
      * eexists; split; [reflexivity|]. intros Hd. exfalso.
        apply bool_decide_eq_true in Hd as [m' Hm'].
        assert (Hdel : delete (path file) (w_files w) !! path file = Some m')
          by (by destruct w).
        by rewrite lookup_delete_eq in Hdel.
    + eexists; split; [reflexivity|]. intros Hd. exfalso.
      apply bool_decide_eq_true in Hd as [m' Hm'].
      assert (Hnone : w_files w !! path file = Some m') by (by destruct w).
      congruence.
  - eexists; split; [reflexivity|]. intros Hd.
    unfold exists_now in Hex. rewrite Hd in Hex. discriminate.
Qed.

(** The clean-up returns, whatever the request. *)
Lemma cleanup_returns req_file w :
  exists w', cleanup_local_file req_file w = (Ok tt, w').
Proof.
  destruct req_file as [file|]; [|by eexists].
  unfold cleanup_local_file.
  destruct (negb (String.eqb (path file) EmptyString)); [|by eexists].
  unfold_monad. rewrite existsSync_run.
  destruct (exists_now w (path file)); [|by eexists].
  rewrite unlinkSync_run.
  destruct (w_files w !! path file) as [m|];
    [destruct (fm_locked m || fm_directory m)|]; by eexists.
Qed.

(** The clean-up makes no remote call: it adds at most one deletion to the
    log. *)
Lemma cleanup_log req_file w :
  exists tail,
    w_log (snd (cleanup_local_file req_file w)) = w_log w ++ tail
    /\ Forall is_unlink tail.
Proof.
  destruct req_file as [file|]; [|exists []; by rewrite app_nil_r].
  unfold cleanup_local_file.
  destruct (negb (String.eqb (path file) EmptyString)); [|exists []; by rewrite app_nil_r].
  unfold_monad. rewrite existsSync_run.
  destruct (exists_now w (path file)); [|exists []; by rewrite app_nil_r].
  rewrite unlinkSync_run.
  destruct (w_files w !! path file) as [m|];
    [destruct (fm_locked m || fm_directory m)|];
    eexists [_]; (split; [by destruct w|]); by repeat constructor.
Qed.

(** The upload handler as a function of the world: the guard, the retry
    loop, then either the record or the clean-up and the failure. *)
Lemma upload_handler_run file w :
  upload_handler (Some file) w
  = if exists_now w (path file) then
      let w1 := after_retries w (path file) (remote_key (originalname file)) in
      if succeeded (attempt_outcomes w (path file))
      then (Ok {| code := 200; body := BImage (uploaded_image w file) |}, w1)
      else (Ok {| code := 500;
                  body := BError "Failed to upload image"
                            (Some ("Failed to upload to Cloudinary after 3 attempts: "
                                   +:+ message (last_error w (path file)))) |},
            snd (cleanup_local_file (Some file) w1))
    else (Ok {| code := 500; body := BError "Failed to save file locally" None |}, w).
Proof.
  unfold upload_handler. unfold_monad.
  rewrite existsSync_run. destruct (exists_now w (path file)); [|done].
  cbn [negb]. rewrite upload_retry_run.
  destruct (succeeded (attempt_outcomes w (path file))) eqn:Hs.
  - unfold after_retries. rewrite Hs. by destruct w.
  - destruct (cleanup_returns (Some file)
                (after_retries w (path file) (remote_key (originalname file))))
      as (w2 & ->).
    reflexivity.
Qed.

Lemma after_retries_files w p key : w_files (after_retries w p key) = w_files w.
Proof.
  unfold after_retries. cbv zeta. destruct (succeeded (attempt_outcomes w p)); by destruct w.
Qed.

Lemma after_retries_log w p key :
  w_log (after_retries w p key) = w_log w ++ schedule p key 1 (attempt_outcomes w p).
Proof.
  unfold after_retries. cbv zeta. destruct (succeeded (attempt_outcomes w p)); by destruct w.
Qed.

Lemma uploadable_on_disk w p : uploadable w p = true -> on_disk w p = true.
Proof.
  unfold uploadable, on_disk. destruct (w_files w !! p); [|done].
  intros _. by apply bool_decide_eq_true.
Qed.

Lemma after_retries_on_disk w p key q :
  on_disk (after_retries w p key) q = on_disk w q.
Proof. unfold on_disk. by rewrite after_retries_files. Qed.

(** The loop makes one, two or three attempts: some failures and then a
    success, which needs a file that can be read, or three failures. *)
Lemma outcomes_of_cases faults disk :
  let outcomes := outcomes_of maxRetries faults disk in
  (succeeded outcomes = true /\ disk = true
   /\ exists k, k <= 2 /\ outcomes = repeat false k ++ [true])
  \/ (succeeded outcomes = false /\ outcomes = [false; false; false]).
Proof.
  destruct disk; destruct faults as [|[|] [|[|] [|[|] faults]]]; cbn;
    first [ right; split; reflexivity
          | left; split; [reflexivity|]; split; [reflexivity|];
            first [ exists 0; split; [lia | reflexivity]
                  | exists 1; split; [lia | reflexivity]
                  | exists 2; split; [lia | reflexivity] ] ].
Qed.

(** C1 (as amended): for every upload request with a valid image, the
    handler answers; either it answers 200 with a record whose status is
    [available] and whose remote URL is not null, or it answers 500 after
    having tried to delete the locally stored file: no local file of the
    request remains on disk unless that deletion itself failed (the file
    cannot be unlinked; the failed deletion is the last call of the
    request). *)
Theorem upload_available_or_cleaned w file :
  path file <> EmptyString ->
  exists resp w',
    upload_handler (Some file) w = (Ok resp, w')
    /\ ((code resp = 200
         /\ exists img url, body resp = BImage img
              /\ im_status img = available /\ im_cloudinaryUrl img = Some url)
        \/ (code resp = 500
            /\ (on_disk w' (path file) = true ->
                locked w (path file) = true
                /\ last (w_log w') = Some (EvUnlink (path file) false)))).
Proof.
  intros Hp. rewrite upload_handler_run.
  destruct (exists_now w (path file)) eqn:Hex.
  - cbv zeta. destruct (succeeded (attempt_outcomes w (path file))).
    + eexists _, _. split; [reflexivity|]. left. split; [done|].
      eexists _, _. by repeat split.
    + destruct (cleanup_spec file
                  (after_retries w (path file) (remote_key (originalname file))) Hp)
        as (w2 & Hrun & Hleft).
      rewrite Hrun. eexists _, _. split; [reflexivity|]. right. split; [done|].
      cbn [snd]. intros Hd. destruct (Hleft Hd) as [Hl Hlog]. split.
      * unfold locked in *. by rewrite after_retries_files in Hl.
      * rewrite Hlog. apply last_snoc.
  - eexists _, _. split; [reflexivity|]. right. split; [done|].
    intros Hd. unfold exists_now in Hex. rewrite Hd in Hex. discriminate.
Qed.

Lemma upload_available_or_cleaned_witness :
  path cat_upload <> EmptyString
  /\ exists resp w',
      upload_handler (Some cat_upload) locked_world = (Ok resp, w')
      /\ ((code resp = 200
           /\ exists img url, body resp = BImage img
                /\ im_status img = available /\ im_cloudinaryUrl img = Some url)
          \/ (code resp = 500
              /\ (on_disk w' (path cat_upload) = true ->
                  locked locked_world (path cat_upload) = true
                  /\ last (w_log w') = Some (EvUnlink (path cat_upload) false)))).
Proof.
  split; [discriminate | apply (upload_available_or_cleaned locked_world cat_upload); discriminate].
Defined.

(** C1, counterexample: the three attempts fail, the request is answered
    with a failure, and the local file is still on disk afterwards. *)
Lemma upload_failure_leaves_file :
  fst (upload_handler (Some cat_upload) locked_world)
    = Ok {| code := 500;
            body := BError "Failed to upload image"
                      (Some "Failed to upload to Cloudinary after 3 attempts: network fault") |}
  /\ on_disk (snd (upload_handler (Some cat_upload) locked_world)) (path cat_upload) = true.
Proof. split; vm_compute; reflexivity. Qed.

(** C4 (as amended): for every upload request that reaches the remote
    upload step (it carries a file and the file is found on disk), the
    remote upload is attempted at most 3 times; after the failed attempt
    number [k] and before the next attempt the handler waits [k] time
    units; if the first two attempts fail and the third succeeds (or an
    earlier one does) the request succeeds and the local file remains on
    disk; the request fails only after the third failed attempt. *)
Theorem upload_retry_backoff w file :
  Fs.existsSync (path file) w = (Ok true, w) ->
  exists resp w' outcomes tail,
    upload_handler (Some file) w = (Ok resp, w')
    /\ w_log w'
       = w_log w ++ schedule (path file) (remote_key (originalname file)) 1 outcomes ++ tail
    /\ Forall is_unlink tail
    /\ length outcomes <= 3
    /\ ((exists k, k <= 2 /\ outcomes = repeat false k ++ [true]
                   /\ tail = [] /\ code resp = 200 /\ on_disk w' (path file) = true)
        \/ (outcomes = [false; false; false] /\ code resp = 500)).
Proof.
  rewrite existsSync_run. intros Hex. injection Hex as Hex.
  rewrite upload_handler_run, Hex. cbv zeta.
  pose proof (outcomes_of_cases (w_faults w) (uploadable w (path file))) as Hcases.
  cbv zeta in Hcases. fold (attempt_outcomes w (path file)) in Hcases.
  destruct Hcases as [(Hs & Hdisk & k & Hk & Hout) | (Hs & Hout)]; rewrite Hs.
  - exists {| code := 200; body := BImage (uploaded_image w file) |},
      (after_retries w (path file) (remote_key (originalname file))),
      (attempt_outcomes w (path file)), [].
    split; [reflexivity|]. split; [by rewrite app_nil_r, after_retries_log|].
    split; [constructor|]. split.
    + rewrite Hout, length_app, repeat_length. simpl. lia.
    + left. exists k. repeat split; try done.
      rewrite after_retries_on_disk. by apply uploadable_on_disk.
  - destruct (cleanup_log (Some file)
                (after_retries w (path file) (remote_key (originalname file))))
      as (tail & Hlog & Htail).
    eexists _, _, (attempt_outcomes w (path file)), tail.
    split; [reflexivity|]. cbn [snd]. split.
    + by rewrite Hlog, after_retries_log, app_assoc.
    + split; [done|]. split; [by rewrite Hout | by right].
Qed.

Lemma upload_retry_backoff_witness :
  Fs.existsSync (path cat_upload) two_faults_world = (Ok true, two_faults_world)
  /\ exists resp w' outcomes tail,
      upload_handler (Some cat_upload) two_faults_world = (Ok resp, w')
      /\ w_log w'
         = w_log two_faults_world
           ++ schedule (path cat_upload) (remote_key (originalname cat_upload)) 1 outcomes
           ++ tail
      /\ Forall is_unlink tail
      /\ length outcomes <= 3
      /\ ((exists k, k <= 2 /\ outcomes = repeat false k ++ [true]
                     /\ tail = [] /\ code resp = 200
                     /\ on_disk w' (path cat_upload) = true)
          \/ (outcomes = [false; false; false] /\ code resp = 500)).
Proof.
  split; [reflexivity | apply (upload_retry_backoff two_faults_world cat_upload); reflexivity].
Defined.

(** The run of the witness: two failed attempts, the pauses of one and two
    time units, the third attempt, and the record. *)
Example upload_third_attempt_succeeds :
  w_log (snd (upload_handler (Some cat_upload) two_faults_world))
    = [ EvUpload "/srv/app/uploads/1700000000000-cat.png" "cat" false; EvSleep 1000;
        EvUpload "/srv/app/uploads/1700000000000-cat.png" "cat" false; EvSleep 2000;
        EvUpload "/srv/app/uploads/1700000000000-cat.png" "cat" true ]
  /\ (exists img, fst (upload_handler (Some cat_upload) two_faults_world)
                  = Ok {| code := 200; body := BImage img |})
  /\ on_disk (snd (upload_handler (Some cat_upload) two_faults_world))
       "/srv/app/uploads/1700000000000-cat.png" = true.
Proof. split; [|split; [eexists|]]; vm_compute; reflexivity. Qed.

(** C4, counterexample: a request without a file fails although no upload
    attempt was made, let alone a third one. *)
Lemma upload_without_file_fails_at_once :
  upload_handler None world0
  = (Ok {| code := 400; body := BError "No file uploaded" None |}, world0)
  /\ w_log world0 = [].
Proof. split; reflexivity. Qed.

(** ** POST /restore/:filename *)

Lemma length_append (a b : string) :
  String.length (a +:+ b) = String.length a + String.length b.
Proof.
  induction a as [|c a IH]; [done|].
  change (S (String.length (a +:+ b)) = S (String.length a + String.length b)).
  by rewrite IH.
Qed.





Example restore_missing_local_file :
  restore_handler "1700000000009-gone.png" world0
  = (Ok {| code := 404; body := BError "Local image file not found" None |}, world0).
Proof. reflexivity. Qed.

Example restore_uploads_once :
  w_log (snd (restore_handler "1700000000000-cat.png" world0))
  = [EvUpload "/srv/app/uploads/1700000000000-cat.png" "1700000000000-cat" true].
Proof. vm_compute. reflexivity. Qed.

(** A file name that leaves the uploads directory: the file above it is
    uploaded.  The directory itself, and the one above it, exist and
    cannot be uploaded: one call, which fails, and the answer is 500. *)
Example restore_outside_uploads :
  (let r := restore_handler "../index.js" app_world in
   (exists data, fst r = Ok {| code := 200;
                               body := BRestored "Image restored to Cloudinary" data |})
   /\ w_log (snd r) = [EvUpload "/srv/app/index.js" EmptyString true])
  /\ map (fun name => (fst (restore_handler name app_world),
                       w_log (snd (restore_handler name app_world))))
       ["."; ".."; "../"; "../missing.js"]
     = [ (Ok {| code := 500; body := BError "Failed to restore image" (Some "EISDIR") |},
          [EvUpload "/srv/app/uploads" EmptyString false]);
         (Ok {| code := 500; body := BError "Failed to restore image" (Some "EISDIR") |},
          [EvUpload "/srv/app" EmptyString false]);
         (Ok {| code := 500; body := BError "Failed to restore image" (Some "EISDIR") |},
          [EvUpload "/srv/app/" EmptyString false]);
         (Ok {| code := 404; body := BError "Local image file not found" None |}, []) ].
Proof. split; [split; [eexists|]|]; vm_compute; reflexivity. Qed.

(** ** The remote key of an upload *)

Lemma split_nonempty sep s : Js.split sep s <> [].
Proof.
  destruct s as [|c s]; [done|]. simpl.
  destruct (Ascii.eqb c sep); [done|]. by destruct (Js.split sep s).
Qed.

(** The first piece of [a ++ b] when [a] has no separator. *)
Lemma first_split_app sep a b :
  lacks sep a = true ->
  Js.first (Js.split sep (a +:+ b)) = a +:+ Js.first (Js.split sep b).
Proof.
  induction a as [|c a IH]; intros Ha; [done|].
  simpl in Ha. apply andb_true_iff in Ha as [Hc Ha]. apply negb_true_iff in Hc.
  change (String c a +:+ b) with (String c (a +:+ b)).
  cbn [Js.split]. rewrite Hc. specialize (IH Ha).
  destruct (Js.split sep (a +:+ b)) as [|piece pieces] eqn:Hs.
  - by destruct (split_nonempty sep (a +:+ b)).
  - unfold Js.first in *. simpl in *. by rewrite IH.
Qed.

Lemma first_split_sep sep b : Js.first (Js.split sep (String sep b)) = EmptyString.
Proof. simpl. by rewrite Ascii.eqb_refl. Qed.

(** [<base>.<ext>] with a dot-free base: the text before the first dot is
    the base. *)
Lemma first_split_base base ext :
  lacks "." base = true ->
  Js.first (Js.split "." (base +:+ "." +:+ ext)) = base.
Proof.
  intros Hb. rewrite first_split_app by done.
  change ("." +:+ ext) with (String "." ext).
  by rewrite first_split_sep, append_empty.
Qed.

Lemma join_cons sep p q qs :
  Js.join sep (p :: q :: qs) = p +:+ sep +:+ Js.join sep (q :: qs).
Proof. reflexivity. Qed.

(** [split] then [join] gives the string back. *)
Lemma join_split sep s : Js.join (String sep EmptyString) (Js.split sep s) = s.
Proof.
  induction s as [|c s IH]; [done|].
  cbn [Js.split]. destruct (Ascii.eqb c sep) eqn:Hc.
  - apply Ascii.eqb_eq in Hc as ->.
    destruct (Js.split sep s) as [|piece pieces] eqn:Hs.
    + by destruct (split_nonempty sep s).
    + by rewrite join_cons, IH.
  - destruct (Js.split sep s) as [|piece pieces] eqn:Hs.
    + by destruct (split_nonempty sep s).
    + destruct pieces as [|q qs].
      * cbn [Js.join] in *. by rewrite IH.
      * rewrite join_cons in *. rewrite <- IH. reflexivity.
Qed.

(** The pieces of [ts-rest] when [ts] has no dash. *)
Lemma split_dash_prefix ts rest :
  lacks "-" ts = true ->
  Js.split "-" (ts +:+ "-" +:+ rest) = ts :: Js.split "-" rest.
Proof.
  induction ts as [|c ts IH]; intros Hts.
  - change (EmptyString +:+ "-" +:+ rest) with (String "-" rest). by cbn.
  - simpl in Hts. apply andb_true_iff in Hts as [Hc Hts]. apply negb_true_iff in Hc.
    change (String c ts +:+ "-" +:+ rest) with (String c (ts +:+ "-" +:+ rest)).
    cbn [Js.split]. by rewrite Hc, (IH Hts).
Qed.

(** The two identifiers of a file name [ts-rest] whose [ts] has neither a
    dash nor a dot. *)
Lemma publicId_of_timestamped ts rest :
  lacks "-" ts = true ->
  publicId_of (ts +:+ "-" +:+ rest) = Js.first (Js.split "." rest).
Proof.
  intros Hts. unfold publicId_of. rewrite split_dash_prefix by done.
  unfold Js.slice1. cbn [tl]. by rewrite join_split.
Qed.

Lemma publicId_with_timestamp_timestamped ts rest :
  lacks "." ts = true ->
  publicId_with_timestamp (ts +:+ "-" +:+ rest)
  = ts +:+ "-" +:+ Js.first (Js.split "." rest).
Proof.
  intros Hts. unfold publicId_with_timestamp.
  rewrite first_split_app by done.
  change ("-" +:+ rest) with (String "-" rest).
  change ("-" +:+ Js.first (Js.split "." rest))
    with (String "-" (Js.first (Js.split "." rest))).
  f_equal. by apply (first_split_app "." "-" rest).
Qed.

(** The two identifiers differ. *)
Lemma candidates_differ ts rest :
  lacks "-" ts = true -> lacks "." ts = true ->
  publicId_of (ts +:+ "-" +:+ rest) <> publicId_with_timestamp (ts +:+ "-" +:+ rest).
Proof.
  intros H1 H2. rewrite publicId_of_timestamped, publicId_with_timestamp_timestamped by done.
  intros Heq. apply (f_equal String.length) in Heq.
  rewrite !length_append in Heq. simpl in Heq. lia.
Qed.

(** For a name [<base>.<ext>] whose base has no dot, the remote key is the
    base. *)
Lemma remote_key_dot_free base ext :
  lacks "." base = true -> remote_key (base +:+ "." +:+ ext) = base.
Proof. apply first_split_base. Qed.

(** C9, at the failing input: for the original name [my.photo.jpg], whose
    extension is [.jpg] and whose base is [my.photo], the upload is keyed
    by [my]: everything after the first dot is cut, not the extension. *)
Theorem uploadImage_cuts_at_first_dot :
  Path.extname "my.photo.jpg" = ".jpg"
  /\ without_extension "my.photo.jpg" = "my.photo"
  /\ remote_key "my.photo.jpg" = "my"
  /\ w_log (snd (uploadImage "/srv/app/uploads/1700000000001-my.photo.jpg" "my.photo.jpg"
                   dotted_world))
     = [EvUpload "/srv/app/uploads/1700000000001-my.photo.jpg" "my" true]
  /\ w_cloud (snd (uploadImage "/srv/app/uploads/1700000000001-my.photo.jpg" "my.photo.jpg"
                     dotted_world)) !! "my.photo" = None.
Proof. repeat split; vm_compute; reflexivity. Qed.

(** ** GET /local-images: one file *)

(** The per-file callback always returns.  When [stat] throws, it returns
    the fault record and has made no call; otherwise it probes
    [publicId_of], then, only when that probe says not-exists,
    [publicId_with_timestamp], and builds the record from the probe that
    decided. *)
Lemma process_file_spec dir name w :
  exists r w',
    process_file dir name w = (Ok r, w')
    /\ same_stores w w'
    /\ li_filename r = name
    /\ match w_files w !! Path.join dir name with
       | None => r = fault_record name /\ w' = w
       | Some m =>
           exists r1 w1,
             fetchResource (publicId_of name) w = (Ok r1, w1)
             /\ if rc_exists r1 then w' = w1 /\ r = listed name m r1
                else exists r2,
                       fetchResource (publicId_with_timestamp name) w1 = (Ok r2, w')
                       /\ if rc_exists r2
                          then r = listed name m r2 /\ li_canRestore r = false
                          else r = listed name m r1
       end.
Proof.
  unfold process_file. unfold_monad. unfold Fs.stat.
  destruct (w_files w !! Path.join dir name) as [m|] eqn:Hf.
  - destruct (fetchResource_spec (publicId_of name) w) as (r1 & evs1 & fl1 & Hrun1 & _).
    rewrite Hrun1.
    set (w1 := advance evs1 fl1 w) in *.
    assert (Hf1 : w_files w1 !! Path.join dir name = Some m) by (by destruct w).
    assert (Hs1 : same_stores w w1) by (by destruct w).
    destruct (rc_exists r1) eqn:He1; cbn [negb].
    + unfold Fs.access_R_OK. rewrite Hf1.
      exists (listed name m r1), w1.
      split; [unfold listed; rewrite He1; by destruct (fm_readable m)|].
      split; [done|]. split; [done|].
      exists r1, w1. split; [done|]. by rewrite He1.
    + destruct (fetchResource_spec (publicId_with_timestamp name) w1)
        as (r2 & evs2 & fl2 & Hrun2 & _).
      rewrite Hrun2.
      set (w2 := advance evs2 fl2 w1) in *.
      assert (Hf2 : w_files w2 !! Path.join dir name = Some m) by (by destruct w).
      assert (Hs2 : same_stores w w2) by (by destruct w).
      destruct (rc_exists r2) eqn:He2.
      * exists (listed name m r2), w2.
        split; [unfold listed; by rewrite He2|]. split; [done|]. split; [done|].
        exists r1, w1. split; [done|]. rewrite He1.
        exists r2. split; [done|]. rewrite He2. split; [done|].
        unfold listed. by rewrite He2.
      * unfold Fs.access_R_OK. rewrite Hf2.
        exists (listed name m r1), w2.
        split; [unfold listed; rewrite He1; by destruct (fm_readable m)|].
        split; [done|]. split; [done|].
        exists r1, w1. split; [done|]. rewrite He1.
        exists r2. split; [done|]. by rewrite He2.
  - eexists _, w. split; [reflexivity|]. split; [apply same_stores_refl|]. done.
Qed.

(** ** GET /local-images: the whole scan *)

Lemma process_file_classified dir name w :
  exists r w',
    process_file dir name w = (Ok r, w')
    /\ same_stores w w' /\ li_filename r = name /\ classified w dir r.
Proof.
  destruct (process_file_spec dir name w) as (r & w' & Hrun & Hs & Hn & Hcase).
  exists r, w'. repeat split; try done; try apply Hs.
  unfold classified. rewrite Hn.
  destruct (w_files w !! Path.join dir name) as [m|]; [|by destruct Hcase as [-> _]].
  destruct Hcase as (r1 & w1 & _ & Hcase).
  destruct (rc_exists r1).
  - destruct Hcase as [_ ->]. by exists r1.
  - destruct Hcase as (r2 & _ & Hcase). destruct (rc_exists r2).
    + destruct Hcase as [-> _]. by exists r2.
    + subst r. by exists r1.
Qed.

Lemma classified_same_stores w w' dir r :
  same_stores w w' -> classified w' dir r -> classified w dir r.
Proof. intros (_ & _ & _ & _ & Hf & _). unfold classified. by rewrite Hf. Qed.

(** The scan over all files returns one record per name, in order. *)
Lemma map_all_process_file dir names w :
  exists rs w',
    map_all (process_file dir) names w = (Ok rs, w')
    /\ same_stores w w'
    /\ map li_filename rs = names
    /\ Forall (classified w dir) rs.
Proof.
  revert w. induction names as [|name names IH]; intros w.
  - exists [], w. split; [done|]. split; [apply same_stores_refl|]. by split.
  - destruct (process_file_classified dir name w) as (r & w1 & Hrun & Hs1 & Hn & Hc).
    destruct (IH w1) as (rs & w2 & Hrun2 & Hs2 & Hns & Hcs).
    exists (r :: rs), w2. cbn [map_all]. unfold_monad. rewrite Hrun, Hrun2.
    split; [done|]. split; [by eapply same_stores_trans|].
    split; [by rewrite <- Hn, <- Hns|].
    constructor; [done|].
    eapply Forall_impl; [exact Hcs|]. intros r' Hr'.
    by eapply classified_same_stores.
Qed.

(** The uploads directory exists for [existsSync] when it is there. *)
Lemma uploads_dir_exists w :
  dir_present (w_dir w) = true -> exists_now w (UPLOAD_DIR w) = true.
Proof.
  intros Hd. unfold exists_now, is_directory. cbv zeta.
  rewrite String.eqb_refl, Hd. cbn [orb andb]. by rewrite !orb_true_r.
Qed.

(** The list handler from the directory listing on. *)
Lemma list_handler_listing w names :
  w_dir w = DirOk names ->
  list_handler w
  = let r := map_all (process_file (UPLOAD_DIR w)) names w in
    (match fst r with
     | Ok images =>
         Ok {| code := 200;
               body := BImages (List.filter (fun file => is_image_name (li_filename file))
                                  images) |}
     | Throw err =>
         Ok {| code := 500;
               body := BError "Failed to list local images" (Some (message err)) |}
     | OutOfFuel => OutOfFuel
     end, snd r).
Proof.
  intros Hdir. unfold list_handler. unfold_monad.
  change (Path.join (w_dirname w) "uploads") with (UPLOAD_DIR w).
  rewrite existsSync_run, uploads_dir_exists by (by rewrite Hdir).
  cbn [negb]. unfold Fs.readdir. rewrite Hdir. cbv zeta.
  by destruct (map_all (process_file (UPLOAD_DIR w)) names w) as [[images|err|] w'].
Qed.

(** The list handler on a directory that can be read. *)
Lemma list_handler_spec w names :
  w_dir w = DirOk names ->
  exists rs w',
    list_handler w
    = (Ok {| code := 200;
             body := BImages (List.filter (fun file => is_image_name (li_filename file)) rs) |},
       w')
    /\ same_stores w w'
    /\ map li_filename rs = names
    /\ Forall (classified w (UPLOAD_DIR w)) rs.
Proof.
  intros Hdir.
  destruct (map_all_process_file (UPLOAD_DIR w) names w) as (rs & w' & Hrun & Hs & Hn & Hc).
  exists rs, w'. split; [|done].
  rewrite (list_handler_listing w names Hdir). cbv zeta. by rewrite Hrun.
Qed.

(** The list handler when the directory is not listed: what it answers
    and what it leaves. *)
Lemma list_handler_no_listing w :
  (forall names, w_dir w <> DirOk names) ->
  list_handler w
  = if exists_now w (UPLOAD_DIR w)
    then (Ok {| code := 500;
                body := BError "Failed to list local images"
                          (Some (match w_dir w with
                                 | DirUnreadable => "EACCES"
                                 | _ => if on_disk w (UPLOAD_DIR w)
                                        then "ENOTDIR" else "ENOENT"
                                 end)) |}, w)
    else match w_dir w with
         | DirBlocked =>
             (Ok {| code := 500;
                    body := BError "Failed to list local images" (Some "EACCES") |}, w)
         | _ => (Ok {| code := 200; body := BImages [] |}, set_dir (DirOk []) w)
         end.
Proof.
  intros Hno. unfold list_handler. unfold_monad.
  change (Path.join (w_dirname w) "uploads") with (UPLOAD_DIR w).
  rewrite existsSync_run.
  destruct (exists_now w (UPLOAD_DIR w)) eqn:Hex; cbn [negb].
  - unfold Fs.readdir.
    destruct (w_dir w) as [| | |names]; try done. by destruct (Hno names).
  - assert (Hdisk : on_disk w (UPLOAD_DIR w) = false).
    { unfold exists_now in Hex. by apply orb_false_iff in Hex as [-> _]. }
    unfold Fs.mkdirSync, Fs.readdir. rewrite Hdisk.
    destruct (w_dir w) as [| | |names] eqn:Hdir.
    + by destruct w.
    + done.
    + rewrite uploads_dir_exists in Hex by (by rewrite Hdir). discriminate.
    + by destruct (Hno names).
Qed.

(** The list handler answers in every world: 200 with the records, or 500
    when the directory cannot be read or created. *)
Lemma list_handler_returns w :
  exists resp w', list_handler w = (Ok resp, w').
Proof.
  destruct (w_dir w) as [| | |names] eqn:Hdir;
    try (rewrite list_handler_no_listing by (by rewrite Hdir); rewrite ?Hdir;
         destruct (exists_now w (UPLOAD_DIR w)); by eexists _, _).
  destruct (list_handler_spec w names Hdir) as (rs & w' & Hrun & _).
  by eexists _, _.
Qed.

Lemma map_filter_names (rs : list LocalImage) :
  map li_filename (List.filter (fun file => is_image_name (li_filename file)) rs)
  = List.filter is_image_name (map li_filename rs).
Proof.
  induction rs as [|r rs IH]; [done|]. simpl.
  destruct (is_image_name (li_filename r)); simpl; by rewrite IH.
Qed.

(** The filter in the claim's words: the extension of the name is, up to
    the case of its letters, one of the recognised extensions. *)
Lemma is_image_name_iff name :
  is_image_name name = true
  <-> exists ext, In ext image_extensions
                  /\ Js.toLowerCase (Path.extname name) = Js.toLowerCase ext.
Proof.
  unfold is_image_name, Js.includes. rewrite existsb_exists. split.
  - intros (ext & Hin & Heq). apply String.eqb_eq in Heq. exists ext. split; [done|].
    rewrite Heq. simpl in Hin.
    destruct Hin as [<-|[<-|[<-|[<-|[<-|[]]]]]]; reflexivity.
  - intros (ext & Hin & Heq). exists ext. split; [done|]. apply String.eqb_eq.
    rewrite Heq. simpl in Hin.
    destruct Hin as [<-|[<-|[<-|[<-|[<-|[]]]]]]; reflexivity.
Qed.

(** C8: for every directory contents, the list answers 200 and the names
    of its records are exactly the directory's names whose extension is a
    recognised image extension, compared without regard to case, in the
    directory's order; a name whose extension is not recognised is in no
    record, however the file was classified. *)
Theorem list_keeps_image_names w names :
  w_dir w = DirOk names ->
  exists imgs w',
    list_handler w = (Ok {| code := 200; body := BImages imgs |}, w')
    /\ map li_filename imgs = List.filter is_image_name names
    /\ (forall name, In name (map li_filename imgs)
          <-> In name names
              /\ exists ext, In ext image_extensions
                   /\ Js.toLowerCase (Path.extname name) = Js.toLowerCase ext).
Proof.
  intros Hdir.
  destruct (list_handler_spec w names Hdir) as (rs & w' & Hrun & _ & Hn & _).
  eexists _, w'. split; [exact Hrun|].
  assert (Hmap : map li_filename
                   (List.filter (fun file => is_image_name (li_filename file)) rs)
                 = List.filter is_image_name names)
    by (by rewrite map_filter_names, Hn).
  split; [done|]. intros name. rewrite Hmap, filter_In, is_image_name_iff. done.
Qed.

Lemma list_keeps_image_names_witness :
  w_dir world0 = DirOk ["1700000000000-cat.png"; "1700000000001-my.photo.jpg"; "notes.txt"]
  /\ exists imgs w',
      list_handler world0 = (Ok {| code := 200; body := BImages imgs |}, w')
      /\ map li_filename imgs
         = List.filter is_image_name
             ["1700000000000-cat.png"; "1700000000001-my.photo.jpg"; "notes.txt"]
      /\ (forall name, In name (map li_filename imgs)
            <-> In name ["1700000000000-cat.png"; "1700000000001-my.photo.jpg"; "notes.txt"]
                /\ exists ext, In ext image_extensions
                     /\ Js.toLowerCase (Path.extname name) = Js.toLowerCase ext).
Proof.
  split; [reflexivity|].
  apply (list_keeps_image_names world0
           ["1700000000000-cat.png"; "1700000000001-my.photo.jpg"; "notes.txt"]).
  reflexivity.
Defined.

Example image_names :
  map is_image_name ["a.PNG"; "b.JpEg"; "c.webp"; "notes.txt"; "x.png.bak"; ".png"; "png"; "d.gif"]
  = [true; true; true; false; false; false; false; true].
Proof. reflexivity. Qed.

Lemma stat_throws_gone p w e w' :
  Fs.stat p w = (Throw e, w') -> w_files w !! p = None.
Proof. unfold Fs.stat. by destruct (w_files w !! p). Qed.

(** C5 (as amended): for every file met by the scan whose name has a
    recognised image extension, if processing it throws (its [stat] fails,
    as for a file deleted after the directory was read), the list request
    still answers 200 and the file is in the result with status [missing]
    and canRestore = true. *)
Theorem faulted_image_file_listed w names name e :
  w_dir w = DirOk names ->
  In name names ->
  Fs.stat (Path.join (UPLOAD_DIR w) name) w = (Throw e, w) ->
  is_image_name name = true ->
  exists imgs w',
    list_handler w = (Ok {| code := 200; body := BImages imgs |}, w')
    /\ In (fault_record name) imgs
    /\ li_filename (fault_record name) = name
    /\ li_status (fault_record name) = missing
    /\ li_canRestore (fault_record name) = true.
Proof.
  intros Hdir Hin Hstat Himg. apply stat_throws_gone in Hstat.
  destruct (list_handler_spec w names Hdir) as (rs & w' & Hrun & _ & Hn & Hc).
  eexists _, w'. split; [exact Hrun|]. split; [|done].
  rewrite <- Hn in Hin. apply in_map_iff in Hin as (r & Hr & Hin).
  apply filter_In. split; [|done].
  rewrite Forall_forall in Hc. specialize (Hc r).
  unfold classified in Hc. rewrite Hr, Hstat in Hc.
  rewrite <- Hc; [done|]. by apply list_elem_of_In.
Qed.

Lemma faulted_image_file_listed_witness :
  w_dir vanished_world = DirOk ["1700000000000-cat.png"; "1700000000002-dog.png"; "notes.txt"]
  /\ In "1700000000002-dog.png" ["1700000000000-cat.png"; "1700000000002-dog.png"; "notes.txt"]
  /\ Fs.stat (Path.join (UPLOAD_DIR vanished_world) "1700000000002-dog.png") vanished_world
     = (Throw (FsError "ENOENT"), vanished_world)
  /\ is_image_name "1700000000002-dog.png" = true
  /\ exists imgs w',
      list_handler vanished_world = (Ok {| code := 200; body := BImages imgs |}, w')
      /\ In (fault_record "1700000000002-dog.png") imgs
      /\ li_filename (fault_record "1700000000002-dog.png") = "1700000000002-dog.png"
      /\ li_status (fault_record "1700000000002-dog.png") = missing
      /\ li_canRestore (fault_record "1700000000002-dog.png") = true.
Proof.
  split; [reflexivity|]. split; [right; left; reflexivity|].
  split; [reflexivity|]. split; [reflexivity|].
  apply (faulted_image_file_listed vanished_world
           ["1700000000000-cat.png"; "1700000000002-dog.png"; "notes.txt"]
           "1700000000002-dog.png" (FsError "ENOENT"));
    [reflexivity | right; left; reflexivity | reflexivity | reflexivity].
Defined.

(** C5, counterexample: [notes.txt] was met by the scan and processing it
    threw (it is gone), and yet it is not in the result: the final filter
    drops every name that has no image extension. *)
Lemma faulted_text_file_dropped :
  In "notes.txt" ["1700000000000-cat.png"; "1700000000002-dog.png"; "notes.txt"]
  /\ fst (process_file (UPLOAD_DIR vanished_world) "notes.txt" vanished_world)
     = Ok (fault_record "notes.txt")
  /\ fst (list_handler vanished_world)
     = Ok {| code := 200;
             body := BImages [cat_record; fault_record "1700000000002-dog.png"] |}
  /\ ~ In "notes.txt" (map li_filename [cat_record; fault_record "1700000000002-dog.png"]).
Proof.
  split; [right; right; left; reflexivity|].
  split; [vm_compute; reflexivity|]. split; [vm_compute; reflexivity|].
  simpl. intros [H|[H|[]]]; discriminate.
Qed.

(** C6 (as amended): for every record of the list, a record classified
    [available] (by either probe) has canRestore = false; a record with
    status [missing] for a readable local file has canRestore = true; and
    for a record whose file could be [stat]ed, canRestore is true if and
    only if the status is [missing] and the local file is readable.  The
    record of a file that could not be [stat]ed is the fault record:
    status [missing], canRestore = true, whatever the state of the file. *)
Theorem canRestore_classification w names :
  w_dir w = DirOk names ->
  exists imgs w',
    list_handler w = (Ok {| code := 200; body := BImages imgs |}, w')
    /\ forall r, In r imgs ->
         let p := Path.join (UPLOAD_DIR w) (li_filename r) in
         (li_status r = available -> li_canRestore r = false)
         /\ (li_status r = missing /\ readable w p = true -> li_canRestore r = true)
         /\ (on_disk w p = true ->
             (li_canRestore r = true <-> li_status r = missing /\ readable w p = true))
         /\ (on_disk w p = false ->
             r = fault_record (li_filename r)
             /\ li_status r = missing /\ li_canRestore r = true).
Proof.
  intros Hdir.
  destruct (list_handler_spec w names Hdir) as (rs & w' & Hrun & _ & _ & Hc).
  eexists _, w'. split; [exact Hrun|]. intros r Hr. cbv zeta.
  apply filter_In in Hr as [Hr _].
  rewrite Forall_forall in Hc. specialize (Hc r (proj2 (list_elem_of_In _ _) Hr)).
  unfold classified in Hc. unfold on_disk, readable.
  destruct (w_files w !! Path.join (UPLOAD_DIR w) (li_filename r)) as [m|].
  - destruct Hc as (rc & Hrec). rewrite Hrec. unfold listed. cbn.
    destruct (rc_exists rc), (fm_readable m); cbn; repeat split; try done;
      try (intros [? ?]; done).
  - assert (Hs : li_status r = missing /\ li_canRestore r = true)
      by (by rewrite Hc).
    destruct Hs as [Hs Hcr]. rewrite Hs, Hcr.
    repeat split; try done;
      intros Hd; apply bool_decide_eq_true in Hd; by destruct Hd.
Qed.

Lemma canRestore_classification_witness :
  w_dir vanished_world = DirOk ["1700000000000-cat.png"; "1700000000002-dog.png"; "notes.txt"]
  /\ exists imgs w',
      list_handler vanished_world = (Ok {| code := 200; body := BImages imgs |}, w')
      /\ forall r, In r imgs ->
           let p := Path.join (UPLOAD_DIR vanished_world) (li_filename r) in
           (li_status r = available -> li_canRestore r = false)
           /\ (li_status r = missing /\ readable vanished_world p = true
               -> li_canRestore r = true)
           /\ (on_disk vanished_world p = true ->
               (li_canRestore r = true
                <-> li_status r = missing /\ readable vanished_world p = true))
           /\ (on_disk vanished_world p = false ->
               r = fault_record (li_filename r)
               /\ li_status r = missing /\ li_canRestore r = true).
Proof.
  split; [reflexivity|].
  apply (canRestore_classification vanished_world
           ["1700000000000-cat.png"; "1700000000002-dog.png"; "notes.txt"]).
  reflexivity.
Defined.

(** C6, counterexample: the list has a record with canRestore = true for a
    file that is not readable (it is gone): the record of the fault path. *)
Lemma canRestore_of_vanished_file :
  fst (list_handler vanished_world)
  = Ok {| code := 200;
          body := BImages [cat_record; fault_record "1700000000002-dog.png"] |}
  /\ li_canRestore (fault_record "1700000000002-dog.png") = true
  /\ li_status (fault_record "1700000000002-dog.png") = missing
  /\ readable vanished_world "/srv/app/uploads/1700000000002-dog.png" = false.
Proof. repeat split; vm_compute; reflexivity. Qed.

(** ** The two identifier candidates *)

(** For [<ts>-<name>.<ext>] with a dash-free and dot-free [ts] and a
    dot-free [name], the two candidates are [<name>] and [<ts>-<name>]. *)
Lemma resolver_candidates_dot_free ts name ext :
  lacks "-" ts = true -> lacks "." ts = true -> lacks "." name = true ->
  publicId_of (ts +:+ "-" +:+ name +:+ "." +:+ ext) = name
  /\ publicId_with_timestamp (ts +:+ "-" +:+ name +:+ "." +:+ ext) = ts +:+ "-" +:+ name.
Proof.
  intros H1 H2 H3.
  rewrite publicId_of_timestamped, publicId_with_timestamp_timestamped by done.
  by rewrite first_split_base.
Qed.

(** C2, at the failing input: the local file of an upload of
    [my.photo.jpg] is [1700000000001-my.photo.jpg]; its name part up to the
    extension is [my.photo], and the full name minus the extension is
    [1700000000001-my.photo]; the scan looks up [my] and then
    [1700000000001-my]. *)
Theorem resolver_cuts_at_first_dot :
  storage_filename 1700000000001 "my.photo.jpg" = "1700000000001-my.photo.jpg"
  /\ without_extension "my.photo.jpg" = "my.photo"
  /\ without_extension "1700000000001-my.photo.jpg" = "1700000000001-my.photo"
  /\ publicId_of "1700000000001-my.photo.jpg" = "my"
  /\ publicId_with_timestamp "1700000000001-my.photo.jpg" = "1700000000001-my"
  /\ List.filter is_lookup
       (w_log (snd (process_file (UPLOAD_DIR dotted_world)
                      "1700000000001-my.photo.jpg" dotted_world)))
     = [EvResource "my" false; EvResource "1700000000001-my" false].
Proof. repeat split; vm_compute; reflexivity. Qed.

(** ** Restore, then list *)






Lemma remote_key_is_second_candidate filename :
  remote_key filename = publicId_with_timestamp filename.
Proof. reflexivity. Qed.

(** *** [path.join] of three arguments *)

Lemma append_assoc (a b c : string) : (a +:+ b) +:+ c = a +:+ (b +:+ c).
Proof.
  induction a as [|x a IH]; [done|].
  change ((String x a +:+ b) +:+ c) with (String x ((a +:+ b) +:+ c)). by rewrite IH.
Qed.



Lemma split_lacks sep s : lacks sep s = true -> Js.split sep s = [s].
Proof.
  induction s as [|c s IH]; [done|]. intros Hs.
  cbn [lacks] in Hs. apply andb_true_iff in Hs as [Hc Hs].
  apply negb_true_iff in Hc. cbn [Js.split]. by rewrite Hc, IH.
Qed.









Lemma prefix_slash_app a b :
  a <> EmptyString -> starts_with_slash (a +:+ b) = starts_with_slash a.
Proof. by destruct a. Qed.






(** * Further properties *)

(** ** The stored file name *)

Lemma sanitize_length s : String.length (Js.sanitize s) = String.length s.
Proof. induction s as [|c s IH]; [done|]. simpl. by rewrite IH. Qed.

Lemma sanitize_char c :
  let c' := if Js.keeps c then c else "_"%char in
  (Js.keeps c' || Ascii.eqb c' "_") = true
  /\ (if Js.keeps c' then c' else "_"%char) = c'.
Proof.
  cbv zeta. destruct (Js.keeps c) eqn:Hk.
  - by rewrite Hk.
  - split; reflexivity.
Qed.

(** X1: the sanitizer keeps the length of the name, leaves only letters,
    digits, dots, dashes and underscores, and changes nothing when applied
    a second time. *)
Theorem sanitize_safe s :
  String.length (Js.sanitize s) = String.length s
  /\ all_chars (fun c => Js.keeps c || Ascii.eqb c "_") (Js.sanitize s) = true
  /\ Js.sanitize (Js.sanitize s) = Js.sanitize s.
Proof.
  split; [apply sanitize_length|].
  induction s as [|c s [IH1 IH2]]; [done|].
  destruct (sanitize_char c) as [Hc1 Hc2]. cbv zeta in Hc1, Hc2.
  cbn [Js.sanitize all_chars]. rewrite Hc1, IH1, IH2, Hc2. done.
Qed.

Lemma lacks_app c a b : lacks c (a +:+ b) = lacks c a && lacks c b.
Proof.
  induction a as [|x a IH]; [done|].
  change (String x a +:+ b) with (String x (a +:+ b)).
  cbn [lacks]. by rewrite IH, andb_assoc.
Qed.

(** A character the sanitizer does not keep, other than the underscore,
    is in no sanitized name. *)
Lemma lacks_sanitize c s :
  Js.keeps c = false -> c <> "_"%char -> lacks c (Js.sanitize s) = true.
Proof.
  intros Hk Hu. induction s as [|x s IH]; [done|].
  cbn [Js.sanitize lacks]. rewrite IH, andb_true_r.
  apply negb_true_iff, Ascii.eqb_neq.
  destruct (Js.keeps x) eqn:Hx; [|congruence]. intros ->. congruence.
Qed.

(** A character that is not a digit is in no decimal numeral. *)
Lemma lacks_numeral c n : lacks c "0123456789" = true -> lacks c (Js.of_N n) = true.
Proof.
  intros Hc. cbn in Hc. repeat (apply andb_true_iff in Hc as [? Hc]).
  assert (Hd : forall d, lacks c (NilEmpty.string_of_uint d) = true).
  { induction d; cbn [NilEmpty.string_of_uint lacks]; rewrite ?IHd; by rewrite ?andb_true_r. }
  unfold Js.of_N, NilZero.string_of_uint.
  destruct (N.to_uint n) eqn:Hn; rewrite <- ?Hn; try apply Hd.
  cbn. by rewrite andb_true_r.
Qed.

(** X2: the name under which an upload is stored has no slash and no
    backslash, whatever the original name: it is a single path segment, so
    the file lies directly in the uploads directory. *)
Theorem storage_filename_no_separator now originalname :
  lacks "/" (storage_filename now originalname) = true
  /\ lacks "\" (storage_filename now originalname) = true
  /\ Js.split "/" (storage_filename now originalname) = [storage_filename now originalname].
Proof.
  assert (Hl : lacks "/" (storage_filename now originalname) = true).
  { unfold storage_filename. rewrite !lacks_app, lacks_numeral, lacks_sanitize; done. }
  split; [done|]. split.
  { unfold storage_filename. rewrite !lacks_app, lacks_numeral, lacks_sanitize; done. }
  generalize dependent (storage_filename now originalname). intros name Hname.
  induction name as [|c name IH]; [done|].
  cbn [lacks] in Hname. apply andb_true_iff in Hname as [Hc Hname].
  apply negb_true_iff in Hc. cbn [Js.split]. by rewrite Hc, IH.
Qed.

Lemma first_split_cons sep c s :
  Js.first (Js.split sep (String c s))
  = if Ascii.eqb c sep then EmptyString else String c (Js.first (Js.split sep s)).
Proof.
  cbn [Js.split]. destruct (Ascii.eqb c sep); [done|].
  destruct (Js.split sep s) eqn:Hs; [by destruct (split_nonempty sep s) | done].
Qed.

(** Cutting at the first dot and sanitizing commute. *)
Lemma first_split_sanitize s :
  Js.first (Js.split "." (Js.sanitize s)) = Js.sanitize (Js.first (Js.split "." s)).
Proof.
  induction s as [|c s IH]; [done|].
  cbn [Js.sanitize]. rewrite !first_split_cons.
  destruct (Ascii.eqb c ".") eqn:Hc.
  - apply Ascii.eqb_eq in Hc as ->. reflexivity.
  - destruct (Js.keeps c) eqn:Hk.
    + rewrite Hc. cbn [Js.sanitize]. by rewrite Hk, IH.
    + cbn. by rewrite Hk, IH.
Qed.

(** X3: for the file that an upload of [originalname] at time [now]
    stores, the scan's first identifier is the sanitized form of the key
    the upload used, and its second identifier is that form behind the
    time stamp and a dash. *)
Theorem stored_file_candidates now originalname :
  publicId_of (storage_filename now originalname)
  = Js.sanitize (Js.first (Js.split "." originalname))
  /\ publicId_with_timestamp (storage_filename now originalname)
     = Js.of_N now +:+ "-" +:+ Js.sanitize (Js.first (Js.split "." originalname)).
Proof.
  unfold storage_filename.
  rewrite publicId_of_timestamped by (by apply lacks_numeral).
  rewrite publicId_with_timestamp_timestamped by (by apply lacks_numeral).
  by rewrite first_split_sanitize.
Qed.

(** ** fetchResource, once more *)

Lemma advance_nil w : advance [] (w_faults w) w = w.
Proof. destruct w. unfold advance. unfold_setters. by rewrite app_nil_r. Qed.

Lemma probe_ladder_bound urls evs hit :
  probe_ladder urls evs hit ->
  length evs <= length urls /\ Forall is_probe evs.
Proof.
  induction 1 as [|url rest|url rest reply evs hit Hr Hl [IH1 IH2]]; simpl.
  - split; [lia | constructor].
  - split; [lia | by repeat constructor].
  - split; [lia | by constructor].
Qed.

(** An answer of [fetchResource] is of one of two shapes, and it costs at
    most one lookup and three presence probes. *)
Lemma fetchResource_calls publicId w :
  exists r evs fl,
    fetchResource publicId w = (Ok r, advance evs fl w)
    /\ answer_ok publicId r /\ Forall is_probe evs /\ length evs <= 4.
Proof.
  destruct (fetchResource_spec publicId w) as (r & evs & fl & Hrun & Hcases).
  exists r, evs, fl. split; [done|].
  destruct Hcases as [(url & -> & _ & ->) | (pevs & hit & -> & Hl & ->)].
  - split; [left; by exists url|]. split; [by repeat constructor | simpl; lia].
  - apply probe_ladder_bound in Hl as [Hlen Hall]. split.
    + destruct hit as [url|]; [left; by exists url | by right].
    + split; [by constructor | simpl in *; lia].
Qed.

Lemma probe_now_advance evs fl w urls :
  probe_now (advance evs fl w) urls = probe_now w urls.
Proof. by destruct w. Qed.

Lemma check_now_advance evs fl w publicId :
  check_now (advance evs fl w) publicId = check_now w publicId.
Proof. by destruct w. Qed.

(** With the network up, the probe loop stops at the first URL that the
    CDN serves. *)
Lemma probe_urls_no_fault publicId urls w :
  w_faults w = [] ->
  exists evs,
    probe_urls publicId urls w
    = (Ok (option_map (fun url => found url publicId) (probe_now w urls)), advance evs [] w).
Proof.
  revert w. induction urls as [|url rest IH]; intros w Hfl.
  - exists []. cbn. unfold_monad. by rewrite <- Hfl, advance_nil.
  - cbn [probe_urls]. unfold_monad. rewrite fetch_head_run, Hfl. cbn [hd tl].
    unfold probe_now. cbn [List.find].
    destruct (bool_decide (url ∈ w_cdn w)).
    + by exists [EvHead url HeadOk].
    + destruct (IH (advance [EvHead url HeadNotOk] [] w)) as (evs & Hrun);
        [apply faults_advance|].
      exists (EvHead url HeadNotOk :: evs).
      rewrite Hrun, advance_advance. fold (probe_now w rest).
      by rewrite probe_now_advance.
Qed.

(** With the network up, [fetchResource] answers [check_now]. *)
Lemma fetchResource_no_fault publicId w :
  w_faults w = [] ->
  exists evs, fetchResource publicId w = (Ok (check_now w publicId), advance evs [] w).
Proof.
  intros Hfl. unfold fetchResource, check_now. unfold_monad.
  rewrite api_resource_run, Hfl. cbn [hd tl].
  destruct (w_cloud w !! publicId) as [url|]; [by exists [EvResource publicId true]|].
  destruct (probe_urls_no_fault publicId
              (urlFormats (advance [EvResource publicId false] [] w) publicId)
              (advance [EvResource publicId false] [] w)) as (evs & Hrun);
    [apply faults_advance|].
  exists (EvResource publicId false :: evs).
  rewrite Hrun, advance_advance, probe_now_advance, urlFormats_advance.
  by destruct (probe_now w (urlFormats w publicId)).
Qed.

(** X4: with the network up, [fetchResource] says exists exactly when
    the remote store knows the identifier or the CDN serves one of the
    three candidate URLs; the fault script stays empty. *)
Theorem fetchResource_network_up publicId w :
  w_faults w = [] ->
  exists r w',
    fetchResource publicId w = (Ok r, w')
    /\ w_faults w' = []
    /\ (rc_exists r = true
        <-> is_Some (w_cloud w !! publicId)
            \/ exists url, In url (urlFormats w publicId) /\ url ∈ w_cdn w).
Proof.
  intros Hfl. destruct (fetchResource_no_fault publicId w Hfl) as (evs & Hrun).
  eexists _, _. split; [exact Hrun|]. split; [apply faults_advance|].
  unfold check_now. destruct (w_cloud w !! publicId) as [url|] eqn:Hc.
  - split; [intros _; left; by eexists | done].
  - unfold probe_now.
    destruct (List.find _ (urlFormats w publicId)) as [url|] eqn:Hfind.
    + apply find_some in Hfind as [Hin Hurl]. apply bool_decide_eq_true in Hurl.
      split; [intros _; right; by exists url | done].
    + split; [done|]. intros [[? ?] | (url & Hin & Hurl)]; [done|].
      eapply find_none in Hfind; [|exact Hin]. cbn in Hfind.
      apply bool_decide_eq_false in Hfind. done.
Qed.

Lemma fetchResource_network_up_witness :
  w_faults world0 = []
  /\ exists r w',
      fetchResource "cat" world0 = (Ok r, w')
      /\ w_faults w' = []
      /\ (rc_exists r = true
          <-> is_Some (w_cloud world0 !! "cat")
              \/ exists url, In url (urlFormats world0 "cat") /\ url ∈ w_cdn world0).
Proof.
  split; [reflexivity | apply (fetchResource_network_up "cat" world0); reflexivity].
Defined.

(** ** The scan, once more *)

Lemma listed_available name m url publicId :
  listed name m (found url publicId)
  = {| li_id := name; li_filename := name; li_originalName := name;
       li_size := Some (fm_size m); li_createdAt := Some (fm_birthtime m);
       li_path := "/uploads/" +:+ name;
       li_cloudinaryUrl := Some url; li_cloudinaryPublicId := Some publicId;
       li_status := available; li_canRestore := false |}.
Proof. reflexivity. Qed.

(** One file of the scan: the record, and the calls, which are lookups
    and presence probes only, at most eight of them. *)
Lemma process_file_calls dir name w :
  exists r evs fl,
    process_file dir name w = (Ok r, advance evs fl w)
    /\ record_ok w dir name r /\ Forall is_probe evs /\ length evs <= 8.
Proof.
  destruct (process_file_spec dir name w) as (r & w' & Hrun & _ & _ & Hcase).
  unfold record_ok.
  destruct (w_files w !! Path.join dir name) as [m|].
  - destruct Hcase as (r1 & w1 & Hrun1 & Hcase).
    destruct (fetchResource_calls (publicId_of name) w)
      as (r1' & evs1 & fl1 & Hrun1' & Hok1 & Hp1 & Hlen1).
    rewrite Hrun1' in Hrun1. injection Hrun1 as -> <-.
    destruct (rc_exists r1) eqn:He1.
    + destruct Hcase as [-> ->]. exists (listed name m r1), evs1, fl1.
      split; [done|]. split; [|split; [done | lia]].
      exists (publicId_of name), r1. by repeat split; [|left].
    + destruct Hcase as (r2 & Hrun2 & Hcase).
      destruct (fetchResource_calls (publicId_with_timestamp name) (advance evs1 fl1 w))
        as (r2' & evs2 & fl2 & Hrun2' & Hok2 & Hp2 & Hlen2).
      rewrite Hrun2' in Hrun2. injection Hrun2 as -> <-.
      rewrite advance_advance in Hrun. exists r, (evs1 ++ evs2), fl2.
      split; [done|]. split; [|split; [by apply Forall_app | rewrite length_app; lia]].
      destruct (rc_exists r2).
      * destruct Hcase as [-> _].
        exists (publicId_with_timestamp name), r2. by repeat split; [|right].
      * subst r. exists (publicId_of name), r1. by repeat split; [|left].
  - destruct Hcase as [-> ->]. exists (fault_record name), [], (w_faults w).
    rewrite advance_nil. split; [done|]. split; [done|]. split; [constructor | simpl; lia].
Qed.

Lemma record_ok_advance evs fl w dir name r :
  record_ok (advance evs fl w) dir name r -> record_ok w dir name r.
Proof. unfold record_ok. by destruct w. Qed.

(** The whole scan: one record per name, and at most eight calls per name,
    all of them lookups and presence probes. *)
Lemma map_all_calls dir names w :
  exists rs evs fl,
    map_all (process_file dir) names w = (Ok rs, advance evs fl w)
    /\ Forall2 (record_ok w dir) names rs
    /\ Forall is_probe evs /\ length evs <= 8 * length names.
Proof.
  revert w. induction names as [|name names IH]; intros w.
  - exists [], [], (w_faults w). rewrite advance_nil.
    split; [done|]. split; [constructor|]. split; [constructor | simpl; lia].
  - destruct (process_file_calls dir name w) as (r & evs1 & fl1 & Hrun1 & Hok & Hp1 & Hlen1).
    destruct (IH (advance evs1 fl1 w)) as (rs & evs2 & fl2 & Hrun2 & Hoks & Hp2 & Hlen2).
    exists (r :: rs), (evs1 ++ evs2), fl2.
    cbn [map_all]. unfold_monad. rewrite Hrun1, Hrun2, advance_advance.
    split; [done|]. split.
    + constructor; [done|].
      eapply Forall2_impl; [exact Hoks|]. intros x y. apply record_ok_advance.
    + split; [by apply Forall_app|]. rewrite length_app. cbn [length]. lia.
Qed.

Lemma record_ok_shape w dir name r : record_ok w dir name r -> record_shape r.
Proof.
  unfold record_ok, record_shape.
  destruct (w_files w !! Path.join dir name) as [m|].
  - intros (publicId & rc & -> & [(url & ->) | ->] & Hid); cbn.
    + repeat split; try done; try by eexists. intros ? [= <-]. exact Hid.
    + repeat split; try done; by intros [? ?].
  - intros ->. cbn. repeat split; try done; by intros [? ?].
Qed.

Lemma list_handler_calls w names :
  w_dir w = DirOk names ->
  exists rs evs fl,
    list_handler w
    = (Ok {| code := 200;
             body := BImages (List.filter (fun file => is_image_name (li_filename file)) rs) |},
       advance evs fl w)
    /\ Forall2 (record_ok w (UPLOAD_DIR w)) names rs
    /\ Forall is_probe evs /\ length evs <= 8 * length names.
Proof.
  intros Hdir.
  destruct (map_all_calls (UPLOAD_DIR w) names w) as (rs & evs & fl & Hrun & Hrest).
  exists rs, evs, fl. split; [|done].
  rewrite (list_handler_listing w names Hdir). cbv zeta. by rewrite Hrun.
Qed.

(** X5: listing a readable directory only reads: the world after it is
    the world before it with more calls in the log and less of the fault
    script, the calls are lookups and presence probes only (no upload, no
    unlink, no pause), and there are at most eight of them per directory
    entry. *)
Theorem list_handler_only_probes w names :
  w_dir w = DirOk names ->
  exists imgs evs fl,
    list_handler w = (Ok {| code := 200; body := BImages imgs |}, advance evs fl w)
    /\ Forall is_probe evs
    /\ length evs <= 8 * length names.
Proof.
  intros Hdir.
  destruct (list_handler_calls w names Hdir) as (rs & evs & fl & Hrun & _ & Hp & Hlen).
  by eexists _, evs, fl.
Qed.

Lemma list_handler_only_probes_witness :
  w_dir vanished_world = DirOk ["1700000000000-cat.png"; "1700000000002-dog.png"; "notes.txt"]
  /\ exists imgs evs fl,
      list_handler vanished_world
      = (Ok {| code := 200; body := BImages imgs |}, advance evs fl vanished_world)
      /\ Forall is_probe evs
      /\ length evs <= 8 * 3.
Proof.
  split; [reflexivity|].
  apply (list_handler_only_probes vanished_world
           ["1700000000000-cat.png"; "1700000000002-dog.png"; "notes.txt"]).
  reflexivity.
Defined.

(** X6: every record of the list has the same shape, whatever the
    network did: id, filename and originalName are the file's name, the
    path is /uploads/ followed by it, the URL and the identifier are
    present exactly when the status is available, an available record is
    not restorable, and the identifier is one of the two candidates of
    the name. *)
Theorem list_records_shape w names :
  w_dir w = DirOk names ->
  exists imgs w',
    list_handler w = (Ok {| code := 200; body := BImages imgs |}, w')
    /\ Forall record_shape imgs.
Proof.
  intros Hdir.
  destruct (list_handler_calls w names Hdir) as (rs & evs & fl & Hrun & Hok & _).
  eexists _, _. split; [exact Hrun|].
  apply List.Forall_forall. intros r Hin. apply filter_In in Hin as [Hin _].
  clear Hrun Hdir. induction Hok as [|name r' names' rs' H1 H2 IH]; [done|].
  destruct Hin as [<- | Hin]; [by eapply record_ok_shape | by apply IH].
Qed.

Lemma list_records_shape_witness :
  w_dir vanished_world = DirOk ["1700000000000-cat.png"; "1700000000002-dog.png"; "notes.txt"]
  /\ exists imgs w',
      list_handler vanished_world = (Ok {| code := 200; body := BImages imgs |}, w')
      /\ Forall record_shape imgs.
Proof.
  split; [reflexivity|].
  apply (list_records_shape vanished_world
           ["1700000000000-cat.png"; "1700000000002-dog.png"; "notes.txt"]).
  reflexivity.
Defined.

(** With the network up, the record of a file is a function of the
    stores. *)
Lemma process_file_no_fault dir name w :
  w_faults w = [] ->
  exists evs, process_file dir name w = (Ok (classify_now w dir name), advance evs [] w).
Proof.
  intros Hfl.
  destruct (process_file_spec dir name w) as (r & w' & Hrun & _ & _ & Hcase).
  unfold classify_now.
  destruct (w_files w !! Path.join dir name) as [m|].
  - destruct Hcase as (r1 & w1 & Hrun1 & Hcase).
    destruct (fetchResource_no_fault (publicId_of name) w Hfl) as (evs1 & Hrun1').
    rewrite Hrun1' in Hrun1. injection Hrun1 as <- <-.
    cbv zeta. destruct (rc_exists (check_now w (publicId_of name))).
    + destruct Hcase as [-> ->]. by exists evs1.
    + destruct Hcase as (r2 & Hrun2 & Hcase).
      destruct (fetchResource_no_fault (publicId_with_timestamp name) (advance evs1 [] w))
        as (evs2 & Hrun2'); [apply faults_advance|].
      rewrite Hrun2' in Hrun2. injection Hrun2 as <- <-.
      rewrite check_now_advance in Hcase. rewrite advance_advance in Hrun.
      exists (evs1 ++ evs2).
      destruct (rc_exists (check_now w (publicId_with_timestamp name)));
        [destruct Hcase as [-> _] | subst r]; done.
  - destruct Hcase as [-> ->]. exists []. by rewrite <- Hfl, advance_nil.
Qed.

Lemma classify_now_advance evs fl w dir name :
  classify_now (advance evs fl w) dir name = classify_now w dir name.
Proof. by destruct w. Qed.

Lemma map_all_no_fault dir names w :
  w_faults w = [] ->
  exists evs,
    map_all (process_file dir) names w
    = (Ok (map (classify_now w dir) names), advance evs [] w).
Proof.
  revert w. induction names as [|name names IH]; intros w Hfl.
  - exists []. by rewrite <- Hfl, advance_nil.
  - destruct (process_file_no_fault dir name w Hfl) as (evs1 & Hrun1).
    destruct (IH (advance evs1 [] w)) as (evs2 & Hrun2); [apply faults_advance|].
    exists (evs1 ++ evs2). cbn [map_all]. unfold_monad.
    rewrite Hrun1, Hrun2, advance_advance. cbn [map].
    assert (map (classify_now (advance evs1 [] w) dir) names
            = map (classify_now w dir) names) as ->; [|done].
    apply map_ext. intros. apply classify_now_advance.
Qed.

Lemma list_handler_no_fault w names :
  w_dir w = DirOk names -> w_faults w = [] ->
  exists evs,
    list_handler w
    = (Ok {| code := 200;
             body := BImages (List.filter (fun file => is_image_name (li_filename file))
                                (map (classify_now w (UPLOAD_DIR w)) names)) |},
       advance evs [] w).
Proof.
  intros Hdir Hfl.
  destruct (map_all_no_fault (UPLOAD_DIR w) names w Hfl) as (evs & Hrun).
  exists evs. rewrite (list_handler_listing w names Hdir). cbv zeta. by rewrite Hrun.
Qed.

Lemma UPLOAD_DIR_advance evs fl w : UPLOAD_DIR (advance evs fl w) = UPLOAD_DIR w.
Proof. by destruct w. Qed.

Lemma dir_advance evs fl w : w_dir (advance evs fl w) = w_dir w.
Proof. by destruct w. Qed.

(** X7: with the network up, the list of a readable directory is the
    directory's image names, in order, each with the record that the
    stores determine; asking again gives the same answer. *)
Theorem list_handler_network_up w names :
  w_dir w = DirOk names -> w_faults w = [] ->
  let answer :=
    {| code := 200;
       body := BImages (List.filter (fun file => is_image_name (li_filename file))
                          (map (classify_now w (UPLOAD_DIR w)) names)) |} in
  exists w1 w2,
    list_handler w = (Ok answer, w1) /\ list_handler w1 = (Ok answer, w2).
Proof.
  intros Hdir Hfl answer.
  destruct (list_handler_no_fault w names Hdir Hfl) as (evs1 & Hrun1).
  destruct (list_handler_no_fault (advance evs1 [] w) names) as (evs2 & Hrun2);
    [by rewrite dir_advance | apply faults_advance |].
  eexists _, _. split; [exact Hrun1|]. rewrite Hrun2. unfold answer.
  rewrite UPLOAD_DIR_advance.
  assert (map (classify_now (advance evs1 [] w) (UPLOAD_DIR w)) names
          = map (classify_now w (UPLOAD_DIR w)) names) as ->; [|done].
  apply map_ext. intros. apply classify_now_advance.
Qed.

Lemma list_handler_network_up_witness :
  w_dir vanished_world = DirOk ["1700000000000-cat.png"; "1700000000002-dog.png"; "notes.txt"]
  /\ w_faults vanished_world = []
  /\ exists w1 w2,
      list_handler vanished_world
      = (Ok {| code := 200;
               body := BImages
                 (List.filter (fun file => is_image_name (li_filename file))
                    (map (classify_now vanished_world (UPLOAD_DIR vanished_world))
                       ["1700000000000-cat.png"; "1700000000002-dog.png"; "notes.txt"])) |},
         w1)
      /\ list_handler w1
         = (Ok {| code := 200;
                  body := BImages
                    (List.filter (fun file => is_image_name (li_filename file))
                       (map (classify_now vanished_world (UPLOAD_DIR vanished_world))
                          ["1700000000000-cat.png"; "1700000000002-dog.png"; "notes.txt"])) |},
            w2).
Proof.
  split; [reflexivity|]. split; [reflexivity|].
  apply (list_handler_network_up vanished_world
           ["1700000000000-cat.png"; "1700000000002-dog.png"; "notes.txt"]);
    reflexivity.
Defined.

(** X8: the list when the uploads directory is not there.  The handler
    tries to create it.  When that works, the directory is there and empty
    afterwards and the answer is 200 with the empty list; when the
    directory cannot be created, the error of [mkdirSync] is caught and the
    answer is 500 with its code, the world being left as it was.  No remote
    call is made in either case. *)
Theorem list_handler_creates_directory w :
  exists_now w (UPLOAD_DIR w) = false ->
  list_handler w
  = match w_dir w with
    | DirBlocked =>
        (Ok {| code := 500;
               body := BError "Failed to list local images" (Some "EACCES") |}, w)
    | _ => (Ok {| code := 200; body := BImages [] |}, set_dir (DirOk []) w)
    end.
Proof.
  intros Hex. rewrite list_handler_no_listing, Hex; [done|].
  intros names Hdir. rewrite uploads_dir_exists in Hex by (by rewrite Hdir). discriminate.
Qed.

Lemma list_handler_creates_directory_witness :
  (exists_now (set_dir DirMissing world0) (UPLOAD_DIR (set_dir DirMissing world0)) = false
   /\ list_handler (set_dir DirMissing world0)
      = (Ok {| code := 200; body := BImages [] |},
         set_dir (DirOk []) (set_dir DirMissing world0)))
  /\ (exists_now (set_dir DirBlocked world0) (UPLOAD_DIR (set_dir DirBlocked world0)) = false
      /\ list_handler (set_dir DirBlocked world0)
         = (Ok {| code := 500;
                  body := BError "Failed to list local images" (Some "EACCES") |},
            set_dir DirBlocked world0)).
Proof.
  split; (split; [reflexivity|]).
  - apply (list_handler_creates_directory (set_dir DirMissing world0)). reflexivity.
  - apply (list_handler_creates_directory (set_dir DirBlocked world0)). reflexivity.
Defined.

(** X9: the list of a directory that cannot be read: a 500 whose detail
    is the file system's error, and the world is left as it was. *)
Theorem list_handler_unreadable w :
  w_dir w = DirUnreadable ->
  list_handler w
  = (Ok {| code := 500;
           body := BError "Failed to list local images" (Some (message (FsError "EACCES"))) |},
     w).
Proof.
  intros Hdir. rewrite list_handler_no_listing by (by rewrite Hdir).
  by rewrite uploads_dir_exists, Hdir by (by rewrite Hdir).
Qed.

Lemma list_handler_unreadable_witness :
  w_dir (set_dir DirUnreadable world0) = DirUnreadable
  /\ list_handler (set_dir DirUnreadable world0)
     = (Ok {| code := 500;
              body := BError "Failed to list local images"
                        (Some (message (FsError "EACCES"))) |},
        set_dir DirUnreadable world0).
Proof.
  split; [reflexivity|].
  apply (list_handler_unreadable (set_dir DirUnreadable world0)); reflexivity.
Defined.

(** ** POST /upload, once more *)

Lemma first_split_lacks sep s : lacks sep (Js.first (Js.split sep s)) = true.
Proof.
  induction s as [|c s IH]; [done|].
  rewrite first_split_cons. destruct (Ascii.eqb c sep) eqn:Hc; [done|].
  cbn [lacks]. by rewrite Hc, IH.
Qed.

Lemma lacks_dot_sanitize s : lacks "." (Js.sanitize s) = lacks "." s.
Proof.
  induction s as [|c s IH]; [done|]. cbn [Js.sanitize lacks]. rewrite IH. f_equal.
  destruct (Js.keeps c) eqn:Hk; [done|].
  destruct (Ascii.eqb c ".") eqn:Hc; [|done].
  apply Ascii.eqb_eq in Hc as ->. discriminate.
Qed.

Lemma stored_cloud p key w :
  w_cloud (stored p key w) = <[key := issued_url w p key]> (w_cloud w).
Proof. by destruct w. Qed.

Lemma stored_cdn p key w :
  w_cdn (stored p key w)
  = w_cdn w ∪ {[issued_url w p key]} ∪ list_to_set (Cloudinary.delivery_urls w key).
Proof. by destruct w. Qed.

Lemma stored_local p key w :
  w_files (stored p key w) = w_files w /\ w_dir (stored p key w) = w_dir w
  /\ w_faults (stored p key w) = w_faults w /\ w_log (stored p key w) = w_log w
  /\ w_dirname (stored p key w) = w_dirname w
  /\ w_cloud_name (stored p key w) = w_cloud_name w.
Proof. by destruct w. Qed.

Lemma delivery_urls_advance evs fl w key :
  Cloudinary.delivery_urls (advance evs fl w) key = Cloudinary.delivery_urls w key.
Proof. by destruct w. Qed.

Lemma served_after (cdn : gset string) url (urls : list string) x :
  x ∈ cdn ∪ {[url]} ∪ list_to_set urls <-> x ∈ cdn \/ x = url \/ In x urls.
Proof.
  rewrite !elem_of_union, elem_of_singleton, elem_of_list_to_set, <- list_elem_of_In. tauto.
Qed.


(** What the retry loop leaves on the remote side. *)
Lemma after_retries_remote w p key :
  let w' := after_retries w p key in
  if succeeded (attempt_outcomes w p)
  then w_cloud w' = <[key := issued_url w p key]> (w_cloud w)
       /\ w_cdn w'
          = w_cdn w ∪ {[issued_url w p key]} ∪ list_to_set (Cloudinary.delivery_urls w key)
  else w_cloud w' = w_cloud w /\ w_cdn w' = w_cdn w.
Proof.
  cbv zeta. unfold after_retries. cbv zeta.
  destruct (succeeded (attempt_outcomes w p)).
  - rewrite stored_cloud, stored_cdn, issued_url_advance, delivery_urls_advance.
    split; by destruct w.
  - split; by destruct w.
Qed.







(** The run of the witness: the answer, the entry and what is served. *)
Example upload_publishes :
  let file := stored_file missing_world "cat.png" "image/png" 2048 in
  let w' := snd (upload_handler (Some file) missing_world) in
  map_to_list (w_cloud w')
  = [("cat", "https://res.cloudinary.com/demo/image/upload/v2/cat.png")]
  /\ bool_decide ("https://res.cloudinary.com/demo/image/upload/v2/cat.png" ∈ w_cdn w') = true
  /\ forallb (fun url => bool_decide (url ∈ w_cdn w')) (urlFormats missing_world "cat") = true
  /\ w_version w' = 3%N.
Proof. repeat split; vm_compute; reflexivity. Qed.

(** *** Upload, then list *)

Lemma exists_now_on_disk w p : on_disk w p = true -> exists_now w p = true.
Proof. unfold exists_now. by intros ->. Qed.

Lemma succeeded_uploadable n faults disk :
  succeeded (outcomes_of n faults disk) = true -> disk = true.
Proof.
  revert faults. induction n as [|n IH]; intros faults; [done|].
  cbn [outcomes_of]. destruct (negb (hd false faults) && disk) eqn:Hok.
  - intros _. by apply andb_true_iff in Hok as [_ ?].
  - unfold succeeded. cbn [existsb id orb]. apply IH.
Qed.

(** An upload that is answered 200: the answer and the world after it. *)
Lemma upload_handler_ok file w resp w1 :
  upload_handler (Some file) w = (Ok resp, w1) -> code resp = 200 ->
  resp = {| code := 200; body := BImage (uploaded_image w file) |}
  /\ w1 = after_retries w (path file) (remote_key (originalname file))
  /\ succeeded (attempt_outcomes w (path file)) = true.
Proof.
  rewrite upload_handler_run.
  destruct (exists_now w (path file)); [|intros [= <- <-]; discriminate].
  cbv zeta. destruct (succeeded (attempt_outcomes w (path file)));
    [|intros [= <- <-]; discriminate].
  by intros [= <- <-] _.
Qed.

Lemma after_retries_names w p key :
  w_dirname (after_retries w p key) = w_dirname w
  /\ w_cloud_name (after_retries w p key) = w_cloud_name w.
Proof.
  unfold after_retries. cbv zeta. destruct (succeeded (attempt_outcomes w p)); by destruct w.
Qed.

(** The world after a loop one of whose attempts has succeeded. *)
Lemma after_upload w p key :
  succeeded (attempt_outcomes w p) = true ->
  let w1 := after_retries w p key in
  (exists m, w_files w !! p = Some m /\ fm_readable m = true)
  /\ w_files w1 = w_files w /\ UPLOAD_DIR w1 = UPLOAD_DIR w
  /\ w_cloud w1 = <[key := issued_url w p key]> (w_cloud w)
  /\ w_cdn w1
     = w_cdn w ∪ {[issued_url w p key]} ∪ list_to_set (Cloudinary.delivery_urls w key)
  /\ (forall publicId, urlFormats w1 publicId = urlFormats w publicId).
Proof.
  intros Hs. cbv zeta.
  pose proof (after_retries_remote w p key) as Hr. cbv zeta in Hr. rewrite Hs in Hr.
  destruct Hr as [Hcloud Hcdn].
  destruct (after_retries_names w p key) as [Hdn Hcn].
  split.
  { apply succeeded_uploadable in Hs. unfold uploadable in Hs.
    destruct (w_files w !! p) as [m|]; [|done]. exists m. split; [done|].
    by apply andb_true_iff in Hs as [? _]. }
  split; [apply after_retries_files|].
  split; [unfold UPLOAD_DIR; by rewrite Hdn|].
  split; [done|]. split; [done|].
  intros publicId. unfold urlFormats, delivery_url. by rewrite Hcn.
Qed.

Lemma find_agree {A} (f g : A -> bool) l :
  (forall x, In x l -> f x = g x) -> List.find f l = List.find g l.
Proof.
  induction l as [|x l IH]; intros Hfg; [done|]. cbn [List.find].
  rewrite (Hfg x) by (by left). destruct (g x); [done|].
  apply IH. intros y Hy. apply Hfg. by right.
Qed.

(** The answer for an identifier is not changed by a new entry under
    another identifier, as long as what is served of its own URLs is not
    changed. *)
Lemma check_now_other w w1 key url publicId :
  w_cloud w1 = <[key := url]> (w_cloud w) ->
  urlFormats w1 publicId = urlFormats w publicId ->
  (forall u, In u (urlFormats w publicId) -> u ∈ w_cdn w1 <-> u ∈ w_cdn w) ->
  publicId <> key ->
  check_now w1 publicId = check_now w publicId.
Proof.
  intros Hc Hurls Hcdn Hne. unfold check_now, probe_now.
  rewrite Hc, lookup_insert_ne, Hurls by done.
  rewrite (find_agree (fun u => bool_decide (u ∈ w_cdn w1))
             (fun u => bool_decide (u ∈ w_cdn w))); [done|].
  intros u Hu. apply bool_decide_ext. by apply Hcdn.
Qed.

Lemma numeral_prefix_differs now s t :
  String.length s = String.length t -> Js.of_N now +:+ "-" +:+ s <> t.
Proof.
  intros Hlen Heq. apply (f_equal String.length) in Heq.
  rewrite !length_append in Heq. cbn in Heq. lia.
Qed.

Lemma append_cancel a x y : a +:+ x = a +:+ y -> x = y.
Proof.
  induction a as [|c a IH]; [done|].
  change (String c (a +:+ x) = String c (a +:+ y) -> x = y). intros [= H]. by apply IH.
Qed.

(** A dot-free base, with no extension or with one. *)
Lemma first_split_ext base ext :
  lacks "." base = true ->
  ext = EmptyString \/ (exists e, ext = String "." e) ->
  Js.first (Js.split "." (base +:+ ext)) = base.
Proof.
  intros Hb [-> | (e & ->)].
  - by rewrite append_empty, split_lacks.
  - by rewrite first_split_app, first_split_sep, append_empty.
Qed.

Lemma delivery_url_ext w publicId ext :
  delivery_url w publicId +:+ ext
  = ("https://res.cloudinary.com/" +:+ w_cloud_name w +:+ "/image/upload")
      +:+ "/" +:+ (publicId +:+ ext).
Proof.
  unfold delivery_url. rewrite !append_assoc.
  change ("/image/upload/" +:+ publicId +:+ ext)
    with ("/image/upload" +:+ "/" +:+ (publicId +:+ ext)).
  reflexivity.
Qed.

Lemma secure_url_shape w m publicId :
  Cloudinary.secure_url_of w m publicId
  = ("https://res.cloudinary.com/" +:+ w_cloud_name w +:+ "/image/upload")
      +:+ "/" +:+ ("v" +:+ Js.of_N (w_version w) +:+ "/" +:+ publicId +:+ "." +:+ fm_format m).
Proof.
  unfold Cloudinary.secure_url_of. rewrite !append_assoc.
  change ("/image/upload/v" +:+ Js.of_N (w_version w) +:+ "/" +:+ publicId +:+ "."
            +:+ fm_format m)
    with ("/image/upload" +:+ "/" +:+ ("v" +:+ Js.of_N (w_version w) +:+ "/" +:+ publicId
                                          +:+ "." +:+ fm_format m)).
  reflexivity.
Qed.

Lemma lacks_sep c a b : lacks c (a +:+ String c b) = false.
Proof.
  rewrite lacks_app. cbn [lacks]. rewrite Ascii.eqb_refl. cbn [negb andb].
  apply andb_false_r.
Qed.

(** The URLs probed for one identifier are not the URLs under which an
    object stored under another identifier is served. *)
Lemma candidate_urls_apart w m publicId key u :
  lacks "." publicId = true -> lacks "/" publicId = true -> lacks "." key = true ->
  publicId <> key ->
  In u (urlFormats w publicId) ->
  u <> Cloudinary.secure_url_of w m key /\ ~ In u (Cloudinary.delivery_urls w key).
Proof.
  intros Hdot Hslash Hkey Hne Hin.
  assert (Hu : exists ext, u = delivery_url w publicId +:+ ext
                 /\ lacks "/" ext = true
                 /\ (ext = EmptyString \/ exists e, ext = String "." e)).
  { destruct Hin as [<- | [<- | [<- | []]]].
    - exists EmptyString. rewrite append_empty. split; [done|]. split; [done | by left].
    - exists ".jpg". split; [done|]. split; [done | right; by eexists].
    - exists ".png". split; [done|]. split; [done | right; by eexists]. }
  destruct Hu as (ext & -> & Hext & Hshape). rewrite delivery_url_ext. split.
  - rewrite secure_url_shape. intros Heq. apply append_cancel, append_cancel in Heq.
    apply (f_equal (lacks "/")) in Heq.
    rewrite lacks_app, Hslash, Hext in Heq.
    change ("v" +:+ Js.of_N (w_version w) +:+ "/" +:+ key +:+ "." +:+ fm_format m)
      with (("v" +:+ Js.of_N (w_version w)) +:+ String "/" (key +:+ "." +:+ fm_format m))
      in Heq.
    by rewrite lacks_sep in Heq.
  - intros Hdel.
    assert (Hv : exists ext', delivery_url w publicId +:+ ext = delivery_url w key +:+ ext'
                   /\ (ext' = EmptyString \/ exists e, ext' = String "." e)).
    { rewrite <- delivery_url_ext in Hdel.
      unfold Cloudinary.delivery_urls in Hdel. cbn [map] in Hdel.
      destruct Hdel as [Hd | [Hd | [Hd | [Hd | [Hd | []]]]]].
      - exists EmptyString. rewrite append_empty. split; [done | by left].
      - exists ".jpg". split; [done | right; by eexists].
      - exists ".png". split; [done | right; by eexists].
      - exists ".gif". split; [done | right; by eexists].
      - exists ".webp". split; [done | right; by eexists]. }
    destruct Hv as (ext' & Heq & Hshape').
    rewrite !delivery_url_ext in Heq. apply append_cancel, append_cancel in Heq.
    apply (f_equal (fun t => Js.first (Js.split "." t))) in Heq.
    rewrite !first_split_ext in Heq by done. done.
Qed.

(** The answer for an identifier is not changed by a successful upload
    under another identifier. *)
Lemma check_now_after_upload w p key publicId :
  succeeded (attempt_outcomes w p) = true ->
  lacks "." publicId = true -> lacks "/" publicId = true -> lacks "." key = true ->
  publicId <> key ->
  check_now (after_retries w p key) publicId = check_now w publicId.
Proof.
  intros Hs Hdot Hslash Hkey Hne.
  destruct (after_upload w p key Hs) as ((m & Hm & _) & _ & _ & Hcloud & Hcdn & Hurls).
  apply (check_now_other w _ key (issued_url w p key)); try done.
  intros u Hu. rewrite Hcdn, served_after.
  destruct (candidate_urls_apart w m publicId key u Hdot Hslash Hkey Hne Hu) as [H1 H2].
  unfold issued_url. rewrite Hm. tauto.
Qed.



(** X12: upload, then list, for an original name whose text before the
    first dot has a character that the storage name replaces.  An upload
    that is answered 200 has stored the object under the unchanged text,
    which is neither of the scan's candidates, and what is served from
    then on is served under that text; so a scan that found neither
    candidate before the upload does not find them after it, with the
    network up, and lists the file that was just uploaded as missing and
    to be restored. *)
Theorem upload_then_scan_misses w originalName mimetype size resp w1 :
  let file := stored_file w originalName mimetype size in
  let key := remote_key originalName in
  upload_handler (Some file) w = (Ok resp, w1) ->
  code resp = 200 ->
  w_faults w1 = [] ->
  Js.sanitize key <> key ->
  rc_exists (check_now w (publicId_of (filename file))) = false ->
  rc_exists (check_now w (publicId_with_timestamp (filename file))) = false ->
  exists img url r w2,
    body resp = BImage img
    /\ im_cloudinaryUrl img = Some url
    /\ im_cloudinaryPublicId img = Some key
    /\ w_cloud w1 !! key = Some url
    /\ process_file (UPLOAD_DIR w1) (filename file) w1 = (Ok r, w2)
    /\ li_filename r = filename file
    /\ li_status r = missing
    /\ li_cloudinaryUrl r = None
    /\ li_canRestore r = true.
Proof.
  cbv zeta. intros Hrun Hcode Hfl1 Hunsafe Hfirst Hsecond.
  set (file := stored_file w originalName mimetype size) in *.
  destruct (upload_handler_ok file w resp w1 Hrun Hcode) as (-> & Hw1 & Hs).
  destruct (after_upload w (path file) (remote_key originalName) Hs)
    as ((m & Hm & Hread) & Hfiles1 & Hdir1 & Hcloud1 & _).
  assert (Hkey : lacks "." (remote_key originalName) = true) by apply first_split_lacks.
  assert (Hid1 : publicId_of (filename file) = Js.sanitize (remote_key originalName)).
  { change (filename file) with (storage_filename (w_now w) originalName).
    unfold storage_filename. rewrite publicId_of_timestamped by (by apply lacks_numeral).
    by rewrite first_split_sanitize. }
  assert (Hid2 : publicId_with_timestamp (filename file)
                 = Js.of_N (w_now w) +:+ "-" +:+ Js.sanitize (remote_key originalName)).
  { change (filename file) with (storage_filename (w_now w) originalName).
    unfold storage_filename.
    rewrite publicId_with_timestamp_timestamped by (by apply lacks_numeral).
    by rewrite first_split_sanitize. }
  assert (Hsame1 : check_now (after_retries w (path file) (remote_key originalName))
                     (publicId_of (filename file))
                   = check_now w (publicId_of (filename file))).
  { apply check_now_after_upload; try done; rewrite Hid1.
    - by rewrite lacks_dot_sanitize.
    - by apply lacks_sanitize.
    - done. }
  assert (Hsame2 : check_now (after_retries w (path file) (remote_key originalName))
                     (publicId_with_timestamp (filename file))
                   = check_now w (publicId_with_timestamp (filename file))).
  { apply check_now_after_upload; try done; rewrite Hid2.
    - rewrite !lacks_app, lacks_numeral, lacks_dot_sanitize, Hkey; done.
    - rewrite !lacks_app, lacks_numeral, lacks_sanitize; done.
    - apply numeral_prefix_differs, sanitize_length. }
  change (remote_key (originalname file)) with (remote_key originalName) in Hw1.
  rewrite <- Hw1 in Hfiles1, Hdir1, Hcloud1, Hsame1, Hsame2. clear Hw1 Hrun Hcode.
  destruct (process_file_no_fault (UPLOAD_DIR w1) (filename file) w1 Hfl1) as (evs & Hscan).
  exists (uploaded_image w file), (issued_url w (path file) (remote_key originalName)),
    (classify_now w1 (UPLOAD_DIR w1) (filename file)), (advance evs [] w1).
  split; [reflexivity|]. split; [reflexivity|]. split; [reflexivity|].
  split; [by rewrite Hcloud1, lookup_insert_eq|].
  split; [exact Hscan|].
  unfold classify_now. rewrite Hdir1, Hfiles1.
  change (Path.join (UPLOAD_DIR w) (filename file)) with (path file). rewrite Hm.
  cbv zeta. rewrite Hsame1, Hsame2, Hfirst, Hsecond.
  unfold check_now, ladder_answer in Hfirst |- *.
  destruct (w_cloud w !! publicId_of (filename file)); [done|].
  destruct (probe_now w (urlFormats w (publicId_of (filename file)))); [done|].
  cbn. by rewrite Hread.
Qed.

Lemma upload_then_scan_misses_witness :
  let file := stored_file spaced_world "my cat.png" "image/png" 2048 in
  let resp := {| code := 200; body := BImage (uploaded_image spaced_world file) |} in
  let w1 := snd (upload_handler (Some file) spaced_world) in
  upload_handler (Some file) spaced_world = (Ok resp, w1)
  /\ code resp = 200
  /\ w_faults w1 = []
  /\ Js.sanitize (remote_key "my cat.png") <> remote_key "my cat.png"
  /\ rc_exists (check_now spaced_world (publicId_of (filename file))) = false
  /\ rc_exists (check_now spaced_world (publicId_with_timestamp (filename file))) = false
  /\ exists img url r w2,
      body resp = BImage img
      /\ im_cloudinaryUrl img = Some url
      /\ im_cloudinaryPublicId img = Some (remote_key "my cat.png")
      /\ w_cloud w1 !! remote_key "my cat.png" = Some url
      /\ process_file (UPLOAD_DIR w1) (filename file) w1 = (Ok r, w2)
      /\ li_filename r = filename file
      /\ li_status r = missing
      /\ li_cloudinaryUrl r = None
      /\ li_canRestore r = true.
Proof.
  cbv zeta. split; [vm_compute; reflexivity|]. split; [reflexivity|].
  split; [vm_compute; reflexivity|]. split; [vm_compute; discriminate|].
  split; [vm_compute; reflexivity|]. split; [vm_compute; reflexivity|].
  apply (upload_then_scan_misses spaced_world "my cat.png" "image/png" 2048
           {| code := 200;
              body := BImage (uploaded_image spaced_world
                                (stored_file spaced_world "my cat.png" "image/png" 2048)) |}
           (snd (upload_handler
                   (Some (stored_file spaced_world "my cat.png" "image/png" 2048))
                   spaced_world)));
    [vm_compute; reflexivity | reflexivity | vm_compute; reflexivity
    | vm_compute; discriminate | vm_compute; reflexivity | vm_compute; reflexivity].
Defined.

(** The run of the witness: the object is stored under [my cat], and the
    scan asks for [my_cat] and [1700000000000-my_cat]. *)
Example spaced_upload_then_scan :
  let file := stored_file spaced_world "my cat.png" "image/png" 2048 in
  let w1 := snd (upload_handler (Some file) spaced_world) in
  map_to_list (w_cloud w1)
  = [("my cat", "https://res.cloudinary.com/demo/image/upload/v2/my cat.png")]
  /\ List.filter is_lookup (w_log (snd (process_file (UPLOAD_DIR w1) (filename file) w1)))
     = [EvResource "my_cat" false; EvResource "1700000000000-my_cat" false].
Proof. split; vm_compute; reflexivity. Qed.



(** The run of the witness: the two answers differ in their URL, which
    carries the version and the format of each upload, and the remote
    store ends with one entry. *)
Example twin_uploads :
  let file1 := stored_file twin_world "cat.png" "image/png" 2048 in
  let file2 := stored_file twin_world "cat.jpg" "image/jpeg" 2048 in
  let w1 := snd (upload_handler (Some file1) twin_world) in
  let w2 := snd (upload_handler (Some file2) w1) in
  map_to_list (w_cloud w1)
  = [("cat", "https://res.cloudinary.com/demo/image/upload/v2/cat.png")]
  /\ map_to_list (w_cloud w2)
     = [("cat", "https://res.cloudinary.com/demo/image/upload/v3/cat.jpg")].
Proof. split; vm_compute; reflexivity. Qed.

(** ** POST /restore/:filename, once more *)




(** *** Restore, then list *)








(** The run of the witness: what the scan logs and answers after the
    restore. *)
Example list_after_restore :
  let w1 := snd (restore_handler "1700000000000-cat.png" missing_world) in
  w_log w1 = [EvUpload "/srv/app/uploads/1700000000000-cat.png" "1700000000000-cat" true]
  /\ List.filter is_lookup
       (w_log (snd (process_file (UPLOAD_DIR w1) "1700000000000-cat.png" w1)))
     = [EvResource "cat" false; EvResource "1700000000000-cat" true]
  /\ w_log (snd (upload_handler (Some cat_upload) missing_world))
     = [EvUpload "/srv/app/uploads/1700000000000-cat.png" "cat" true].
Proof. repeat split; vm_compute; reflexivity. Qed.

(** ** deleteResource *)





Example delete_is_logged :
  deleteResource "cat" world0
  = (Ok {| dr_result := "ok" |},
     set_log [EvDestroy "cat" true] (set_cloud ∅ world0))
  /\ fst (deleteResource "dog" world0) = Ok {| dr_result := "not found" |}
  /\ w_log (snd (deleteResource "dog" world0)) = [EvDestroy "dog" false]
  /\ deleteResource "cat" (set_faults [true] world0)
     = (Throw NetworkFault, set_log [EvDestroy "cat" false] world0).
Proof. repeat split; vm_compute; reflexivity. Qed.



(** ** checkCloudinaryImage *)

Lemma checkCloudinaryImage_invalid answers url w :
  url = EmptyString \/ includes_str "cloudinary.com" url = false
  \/ publicId_of_url url = EmptyString ->
  checkCloudinaryImage answers url w = (Ok false, w).
Proof.
  intros Hbad. unfold checkCloudinaryImage. unfold_monad.
  destruct (String.eqb url EmptyString) eqn:He; [done|].
  destruct (includes_str "cloudinary.com" url) eqn:Hi; [|done]. cbn [negb orb].
  destruct Hbad as [-> | [? | ->]]; done.
Qed.

(** A well-formed URL: the lookup, then the HEAD, then the GET. *)
Lemma checkCloudinaryImage_run answers url w :
  url <> EmptyString -> includes_str "cloudinary.com" url = true ->
  publicId_of_url url <> EmptyString ->
  let publicId := publicId_of_url url in
  let fl := w_faults w in
  checkCloudinaryImage answers url w
  = if negb (hd false fl) && bool_decide (is_Some (w_cloud w !! publicId))
    then (Ok true, advance [EvResource publicId true] (tl fl) w)
    else if hd false (tl fl)
    then (Ok false,
          advance [EvResource publicId false; EvHead url HeadFault] (tl (tl fl)) w)
    else if bool_decide (url ∈ w_cdn w)
    then (Ok true, advance [EvResource publicId false; EvHead url HeadOk] (tl (tl fl)) w)
    else (Ok (negb (hd false (tl (tl fl))) && bool_decide (url ∈ answers)),
          advance [EvResource publicId false; EvHead url HeadNotOk;
                   EvGet url (if hd false (tl (tl fl)) then HeadFault
                              else if bool_decide (url ∈ answers) then HeadOk
                                   else HeadNotOk)]
            (tl (tl (tl fl))) w).
Proof.
  intros Hurl Hinc Hid. cbv zeta.
  apply String.eqb_neq in Hurl. apply String.eqb_neq in Hid.
  unfold checkCloudinaryImage. rewrite Hurl, Hinc, Hid. cbn [negb orb].
  unfold fetch_get.
  destruct w as [dn cn now d fs c cdn ver fl lg]. unfold advance.
  destruct fl as [|f1 [|f2 [|f3 fl]]]; run;
    repeat match goal with
           | f : bool |- _ => destruct f
           end;
    cbn;
    destruct (c !! publicId_of_url url); cbn; try reflexivity;
    destruct (bool_decide (url ∈ cdn)); cbn; rewrite <- ?app_assoc; try reflexivity;
    destruct (bool_decide (url ∈ answers)); cbn; rewrite <- ?app_assoc; reflexivity.
Qed.

Lemma set_faults_advance evs fl fl' w :
  set_faults fl' (advance evs fl w) = advance evs fl' w.
Proof. by destruct w. Qed.

(** X17: [checkCloudinaryImage] never throws, whatever the network does,
    and it only reads: the world after it is the world before it with at
    most three calls more in the log, a lookup, a HEAD and a GET. *)
Theorem checkCloudinaryImage_total answers url w :
  exists b evs fl,
    checkCloudinaryImage answers url w = (Ok b, advance evs fl w)
    /\ Forall is_read evs /\ length evs <= 3.
Proof.
  destruct (String.eqb url EmptyString) eqn:Hurl.
  { apply String.eqb_eq in Hurl.
    exists false, [], (w_faults w). rewrite advance_nil.
    split; [apply checkCloudinaryImage_invalid; by left|].
    split; [constructor | simpl; lia]. }
  destruct (includes_str "cloudinary.com" url) eqn:Hinc; cycle 1.
  { exists false, [], (w_faults w). rewrite advance_nil.
    split; [apply checkCloudinaryImage_invalid; right; by left|].
    split; [constructor | simpl; lia]. }
  destruct (String.eqb (publicId_of_url url) EmptyString) eqn:Hid.
  { apply String.eqb_eq in Hid.
    exists false, [], (w_faults w). rewrite advance_nil.
    split; [apply checkCloudinaryImage_invalid; right; by right|].
    split; [constructor | simpl; lia]. }
  apply String.eqb_neq in Hurl, Hid.
  rewrite checkCloudinaryImage_run by done. cbv zeta.
  destruct (negb (hd false (w_faults w)) && _);
    [|destruct (hd false (tl (w_faults w))); [|destruct (bool_decide (url ∈ w_cdn w))]];
    eexists _, _, _; (split; [reflexivity|]); split;
      try (repeat constructor); simpl; lia.
Qed.

(** X18: with the network up, a well-formed URL is answered true exactly
    when the remote store knows its identifier, or the CDN answers a HEAD
    of the URL, or a GET of it is answered. *)
Theorem checkCloudinaryImage_network_up answers url w :
  url <> EmptyString -> includes_str "cloudinary.com" url = true ->
  publicId_of_url url <> EmptyString ->
  w_faults w = [] ->
  exists w',
    checkCloudinaryImage answers url w
    = (Ok (bool_decide (is_Some (w_cloud w !! publicId_of_url url))
           || bool_decide (url ∈ w_cdn w) || bool_decide (url ∈ answers)), w').
Proof.
  intros Hurl Hinc Hid Hfl. rewrite checkCloudinaryImage_run by done. cbv zeta.
  rewrite Hfl. cbn [hd tl negb andb].
  destruct (bool_decide (is_Some (w_cloud w !! publicId_of_url url))); [by eexists|].
  destruct (bool_decide (url ∈ w_cdn w)); by eexists.
Qed.

Lemma checkCloudinaryImage_network_up_witness :
  let url := "https://res.cloudinary.com/demo/image/upload/v1/cat.png" in
  url <> EmptyString /\ includes_str "cloudinary.com" url = true
  /\ publicId_of_url url <> EmptyString
  /\ w_faults world0 = []
  /\ exists w',
      checkCloudinaryImage ∅ url world0
      = (Ok (bool_decide (is_Some (w_cloud world0 !! publicId_of_url url))
             || bool_decide (url ∈ w_cdn world0) || bool_decide (url ∈ (∅ : gset string))),
         w').
Proof.
  cbv zeta. split; [discriminate|]. split; [reflexivity|].
  split; [vm_compute; discriminate|]. split; [reflexivity|].
  apply (checkCloudinaryImage_network_up ∅
           "https://res.cloudinary.com/demo/image/upload/v1/cat.png" world0);
    [discriminate | reflexivity | vm_compute; discriminate | reflexivity].
Defined.

(** X19: when the lookup does not find the identifier and the HEAD meets
    a network fault, the answer is false and the GET is not made, even for
    a URL that a GET would have been answered for. *)
Theorem checkCloudinaryImage_head_fault answers url w fault rest :
  url <> EmptyString -> includes_str "cloudinary.com" url = true ->
  publicId_of_url url <> EmptyString ->
  w_faults w = fault :: true :: rest ->
  fault = true \/ w_cloud w !! publicId_of_url url = None ->
  checkCloudinaryImage answers url w
  = (Ok false,
     advance [EvResource (publicId_of_url url) false; EvHead url HeadFault] rest w).
Proof.
  intros Hurl Hinc Hid Hfl Hmiss. rewrite checkCloudinaryImage_run by done. cbv zeta.
  rewrite Hfl. cbn [hd tl].
  destruct Hmiss as [-> | ->]; [done|].
  assert (bool_decide (is_Some (@None string)) = false) as ->
    by (apply bool_decide_eq_false; by intros [? ?]).
  by rewrite andb_false_r.
Qed.

Lemma checkCloudinaryImage_head_fault_witness :
  let url := "https://res.cloudinary.com/demo/image/upload/dog.png" in
  let w := set_faults [false; true] world0 in
  url <> EmptyString /\ includes_str "cloudinary.com" url = true
  /\ publicId_of_url url <> EmptyString
  /\ w_faults w = [false; true]
  /\ (false = true \/ w_cloud w !! publicId_of_url url = None)
  /\ checkCloudinaryImage {[ url ]} url w
     = (Ok false,
        advance [EvResource (publicId_of_url url) false; EvHead url HeadFault] [] w).
Proof.
  cbv zeta. split; [discriminate|]. split; [reflexivity|].
  split; [vm_compute; discriminate|]. split; [reflexivity|].
  split; [right; reflexivity|].
  apply (checkCloudinaryImage_head_fault
           {[ "https://res.cloudinary.com/demo/image/upload/dog.png" ]}
           "https://res.cloudinary.com/demo/image/upload/dog.png"
           (set_faults [false; true] world0) false []);
    [discriminate | reflexivity | vm_compute; discriminate | reflexivity
    | right; reflexivity].
Defined.

(** *** The identifier taken from a URL *)

Lemma split_two sep a b : 2 <= length (Js.split sep (a +:+ String sep b)).
Proof.
  induction a as [|c a IH].
  - change (EmptyString +:+ String sep b) with (String sep b).
    cbn [Js.split]. rewrite Ascii.eqb_refl. cbn [length].
    pose proof (split_nonempty sep b). destruct (Js.split sep b); [done | simpl; lia].
  - change (String c a +:+ String sep b) with (String c (a +:+ String sep b)).
    cbn [Js.split]. destruct (Ascii.eqb c sep); [simpl; lia|].
    destruct (Js.split sep (a +:+ String sep b)); simpl in *; lia.
Qed.

Lemma last_cons_cons {A} (x y : A) l : last (x :: y :: l) = last (y :: l).
Proof. reflexivity. Qed.

(** The last piece of [a/b] is the last piece of [b]. *)
Lemma last_split_app sep a b :
  last (Js.split sep (a +:+ String sep b)) = last (Js.split sep b).
Proof.
  induction a as [|c a IH].
  - change (EmptyString +:+ String sep b) with (String sep b).
    cbn [Js.split]. rewrite Ascii.eqb_refl.
    pose proof (split_nonempty sep b). by destruct (Js.split sep b).
  - change (String c a +:+ String sep b) with (String c (a +:+ String sep b)).
    cbn [Js.split]. pose proof (split_two sep a b) as Hlen.
    destruct (Js.split sep (a +:+ String sep b)) as [|p [|q l]]; simpl in Hlen; try lia.
    destruct (Ascii.eqb c sep); by rewrite <- IH, !last_cons_cons.
Qed.

Lemma publicId_of_url_last base name :
  lacks "/" name = true ->
  publicId_of_url (base +:+ "/" +:+ name) = Js.first (Js.split "." name).
Proof.
  intros Hname. unfold publicId_of_url. cbv zeta.
  change (String "/" EmptyString +:+ name) with (String "/" name).
  by rewrite last_split_app, (split_lacks "/" name).
Qed.

(** X20: a URL that ends with a slash has no identifier: it is answered
    false without any call, whatever the remote store has. *)
Theorem checkCloudinaryImage_trailing_slash answers base w :
  checkCloudinaryImage answers (base +:+ "/") w = (Ok false, w).
Proof.
  apply checkCloudinaryImage_invalid. right. right.
  exact (publicId_of_url_last base EmptyString eq_refl).
Qed.

(** The three URLs that [fetchResource] probes for an identifier without
    slash and dot give that identifier back. *)
Lemma publicId_of_url_candidates w publicId url :
  lacks "/" publicId = true -> lacks "." publicId = true ->
  In url (urlFormats w publicId) ->
  publicId_of_url url = publicId
  /\ includes_str "cloudinary.com" url = true /\ url <> EmptyString.
Proof.
  intros Hslash Hdot Hin.
  assert (Hshape : exists ext,
            url = delivery_url w publicId +:+ ext /\ lacks "/" ext = true
            /\ Js.first (Js.split "." (publicId +:+ ext)) = publicId).
  { destruct Hin as [<- | [<- | [<- | []]]].
    - exists EmptyString. rewrite !append_empty. split; [done|]. split; [done|].
      by rewrite split_lacks.
    - exists ".jpg". split; [done|]. split; [done|]. by apply first_split_base.
    - exists ".png". split; [done|]. split; [done|]. by apply first_split_base. }
  destruct Hshape as (ext & -> & Hext & Hfirst). split; [|split].
  - rewrite delivery_url_ext, publicId_of_url_last; [done|].
    by rewrite lacks_app, Hslash, Hext.
  - rewrite delivery_url_ext. reflexivity.
  - rewrite delivery_url_ext. discriminate.
Qed.

(** X21: the two checks agree on the URLs that [fetchResource] builds.
    For an identifier without slash and dot, and with the network up, if
    the remote store knows the identifier or the CDN serves the candidate
    URL, then [checkCloudinaryImage] of that URL answers true. *)
Theorem checkCloudinaryImage_of_candidate answers w publicId url :
  publicId <> EmptyString ->
  lacks "/" publicId = true -> lacks "." publicId = true ->
  In url (urlFormats w publicId) ->
  w_faults w = [] ->
  is_Some (w_cloud w !! publicId) \/ url ∈ w_cdn w ->
  exists w', checkCloudinaryImage answers url w = (Ok true, w').
Proof.
  intros Hne Hslash Hdot Hin Hfl Hthere.
  destruct (publicId_of_url_candidates w publicId url Hslash Hdot Hin)
    as (Hid & Hinc & Hurl).
  rewrite checkCloudinaryImage_run by (try done; by rewrite Hid).
  cbv zeta. rewrite Hid, Hfl. cbn [hd tl negb andb].
  destruct (bool_decide (is_Some (w_cloud w !! publicId))) eqn:Hc; [by eexists|].
  destruct (bool_decide (url ∈ w_cdn w)) eqn:Hcdn; [by eexists|].
  apply bool_decide_eq_false in Hc, Hcdn. by destruct Hthere.
Qed.

Lemma checkCloudinaryImage_of_candidate_witness :
  "cat" <> EmptyString
  /\ lacks "/" "cat" = true /\ lacks "." "cat" = true
  /\ In "https://res.cloudinary.com/demo/image/upload/cat.jpg" (urlFormats world0 "cat")
  /\ w_faults world0 = []
  /\ (is_Some (w_cloud world0 !! "cat")
      \/ "https://res.cloudinary.com/demo/image/upload/cat.jpg" ∈ w_cdn world0)
  /\ exists w',
      checkCloudinaryImage ∅ "https://res.cloudinary.com/demo/image/upload/cat.jpg" world0
      = (Ok true, w').
Proof.
  split; [discriminate|]. split; [reflexivity|]. split; [reflexivity|].
  split; [right; left; reflexivity|]. split; [reflexivity|].
  split; [left; by eexists|].
  apply (checkCloudinaryImage_of_candidate ∅ world0 "cat"
           "https://res.cloudinary.com/demo/image/upload/cat.jpg");
    [discriminate | reflexivity | reflexivity | right; left; reflexivity | reflexivity
    | left; by eexists].
Defined.

(** ** The identifiers *)

(** X22: no identifier that the code makes has a dot: not the key of an
    upload or of a restore, not the two candidates of the scan, not the
    identifier taken from a URL, which has no slash either. *)
Theorem identifiers_dot_free name url :
  lacks "." (remote_key name) = true
  /\ lacks "." (publicId_of name) = true
  /\ lacks "." (publicId_with_timestamp name) = true
  /\ lacks "." (publicId_of_url url) = true
  /\ lacks "/" (publicId_of_url url) = true.
Proof.
  repeat split; try apply first_split_lacks.
  unfold publicId_of_url. cbv zeta.
  assert (Hpieces : Forall (fun piece => lacks "/" piece = true) (Js.split "/" url)).
  { induction url as [|c url IH]; [by repeat constructor|].
    cbn [Js.split]. destruct (Ascii.eqb c "/") eqn:Hc; [by constructor|].
    destruct (Js.split "/" url) as [|piece pieces];
      [constructor; [cbn [lacks]; by rewrite Hc | constructor]|].
    inversion IH as [|? ? Hp Hps]; subst. constructor; [|done].
    cbn [lacks]. by rewrite Hc, Hp. }
  assert (Hlast : lacks "/" (default EmptyString (last (Js.split "/" url))) = true).
  { induction Hpieces as [|p [|q l] Hp Hl IH]; [done | done | exact IH]. }
  revert Hlast. generalize (default EmptyString (last (Js.split "/" url))).
  intros s. induction s as [|c s IH]; [done|]. cbn [lacks]. intros Hs.
  apply andb_true_iff in Hs as [Hc Hs]. rewrite first_split_cons.
  destruct (Ascii.eqb c "."); [done|]. cbn [lacks]. by rewrite Hc, IH.
Qed.

(** ** Accepted by the upload, not shown by the list *)

Lemma extname_loop_dotless p n st :
  lacks "." p = true -> Path.startDot st = (-1)%Z ->
  Path.startDot (Path.extname_loop p n st) = (-1)%Z.
Proof.
  intros Hp. revert st. induction n as [|i IH]; intros st Hst; [done|].
  cbn [Path.extname_loop].
  destruct (String.get i p) as [code|] eqn:Hget; [|by apply IH].
  assert (Hcode : Ascii.eqb code "." = false).
  { clear -Hp Hget. revert i Hget. induction p as [|c p IHp]; intros i Hget; [done|].
    cbn [lacks] in Hp. apply andb_true_iff in Hp as [Hc Hp].
    destruct i as [|i]; cbn in Hget.
    - injection Hget as <-. by apply negb_true_iff.
    - by apply (IHp Hp i). }
  destruct (Ascii.eqb code "/").
  - destruct (negb (Path.matchedSlash st)); [done | by apply IH].
  - cbv zeta. rewrite Hcode. apply IH.
    destruct (Path.end_ st =? -1)%Z; cbn [Path.startDot]; rewrite Hst; done.
Qed.

Lemma extname_dotless p : lacks "." p = true -> Path.extname p = EmptyString.
Proof.
  intros Hp. unfold Path.extname. cbv zeta.
  by rewrite (extname_loop_dotless p (String.length p) Path.scan0 Hp eq_refl).
Qed.

(** X23: the upload accepts a file by its MIME type, the list shows a
    file by its extension.  An original name without a dot is stored under
    a name without a dot, which has no extension; so the stored file of
    such an upload is in no list, whatever the directory and the network. *)
Theorem dotless_upload_never_listed now originalname w names :
  lacks "." originalname = true ->
  w_dir w = DirOk names ->
  is_image_name (storage_filename now originalname) = false
  /\ exists imgs w',
       list_handler w = (Ok {| code := 200; body := BImages imgs |}, w')
       /\ ~ In (storage_filename now originalname) (map li_filename imgs).
Proof.
  intros Hdot Hdir.
  assert (Hno : is_image_name (storage_filename now originalname) = false).
  { unfold is_image_name. rewrite extname_dotless; [done|].
    unfold storage_filename. rewrite !lacks_app, lacks_numeral, lacks_dot_sanitize; done. }
  split; [done|].
  destruct (list_handler_spec w names Hdir) as (rs & w' & Hrun & _ & Hn & _).
  eexists _, w'. split; [exact Hrun|].
  rewrite map_filter_names. intros Hin. apply filter_In in Hin as [_ Hin]. congruence.
Qed.

Lemma dotless_upload_never_listed_witness :
  lacks "." "README" = true
  /\ w_dir world0 = DirOk ["1700000000000-cat.png"; "1700000000001-my.photo.jpg"; "notes.txt"]
  /\ is_image_name (storage_filename 1700000000000 "README") = false
  /\ exists imgs w',
       list_handler world0 = (Ok {| code := 200; body := BImages imgs |}, w')
       /\ ~ In (storage_filename 1700000000000 "README") (map li_filename imgs).
Proof.
  split; [reflexivity|]. split; [reflexivity|].
  apply (dotless_upload_never_listed 1700000000000 "README" world0
           ["1700000000000-cat.png"; "1700000000001-my.photo.jpg"; "notes.txt"]);
    reflexivity.
Defined.

(** ** The start-up check *)

(** X24: the start-up check passes exactly when each of the three
    variables is set to a non-empty value; otherwise it throws, and the
    message names the first of the three, in the order of the source, that
    is unset or empty. *)
Theorem ensure_env_first_missing env :
  match ensure_env env required_env with
  | Ok _ => forall key, In key required_env ->
                        exists value, env !! key = Some value /\ value <> EmptyString
  | Throw err =>
      exists before key after,
        required_env = before ++ key :: after
        /\ Forall (fun k => env_missing env k = false) before
        /\ env_missing env key = true
        /\ err = Error ("Missing required environment variable: " +:+ key)
  | OutOfFuel => False
  end.
Proof.
  generalize required_env. intros keys. induction keys as [|key keys IH].
  - cbn. by intros ? [].
  - cbn [ensure_env]. destruct (env_missing env key) eqn:Hkey.
    + exists [], key, keys. by repeat split.
    + destruct (ensure_env env keys) as [[]|err|].
      * intros k [<- | Hin]; [|by apply IH].
        unfold env_missing in Hkey. destruct (env !! key) as [value|]; [|done].
        exists value. split; [done|]. by apply String.eqb_neq.
      * destruct IH as (before & k & after & -> & Hb & Hk & ->).
        exists (key :: before), k, after. repeat split; try done. by constructor.
      * done.
Qed.

(** ** The CORS origin callback *)

Lemma strip_trailing_slash_inv s t :
  strip_trailing_slash s = t -> s = t \/ s = t +:+ "/".
Proof.
  revert t. induction s as [|c s IH]; intros t Ht; [by left|].
  cbn [strip_trailing_slash] in Ht. destruct s as [|c' s'].
  - destruct (Ascii.eqb c "/") eqn:Hc.
    + apply Ascii.eqb_eq in Hc as ->. subst t. by right.
    + by left.
  - subst t. destruct (IH _ eq_refl) as [Hs | Hs].
    + left. by rewrite <- Hs.
    + right. rewrite Hs at 1. reflexivity.
Qed.

(** X25: the origins that the CORS callback lets through: a request
    without an Origin header or with an empty one, and the two allowed
    origins, each as it is or with one slash after it.  Every other origin
    is refused with the error [Not allowed by CORS]. *)
Theorem cors_origin_accepts origin :
  (cors_origin origin = Ok true
   <-> origin = None \/ origin = Some EmptyString
       \/ exists allowed, In allowed allowedOrigins
            /\ (origin = Some allowed \/ origin = Some (allowed +:+ "/")))
  /\ (cors_origin origin = Ok true
      \/ cors_origin origin = Throw (Error "Not allowed by CORS")).
Proof.
  split; [|unfold cors_origin; cbv zeta;
           destruct (_ || _); [by left | by right]].
  destruct origin as [o|]; [|split; [by left | done]].
  unfold cors_origin. cbv zeta. cbn [option_map].
  destruct (String.eqb o EmptyString) eqn:Ho.
  { apply String.eqb_eq in Ho as ->. split; [right; by left | done]. }
  cbn [orb]. apply String.eqb_neq in Ho.
  destruct (Js.includes allowedOrigins (strip_trailing_slash o)) eqn:Hinc.
  - split; [intros _ | done]. right. right.
    unfold Js.includes in Hinc. apply existsb_exists in Hinc as (a & Hin & Heq).
    apply String.eqb_eq in Heq. exists a. split; [done|].
    destruct (strip_trailing_slash_inv o a Heq) as [-> | ->]; [by left | by right].
  - split; [done|]. intros [? | [[= ->] | (a & Hin & Ha)]]; [done | done |].
    assert (Hstrip : strip_trailing_slash o = a).
    { destruct Hin as [<- | [<- | []]]; destruct Ha as [[= ->] | [= ->]]; reflexivity. }
    assert (Js.includes allowedOrigins (strip_trailing_slash o) = true); [|congruence].
    unfold Js.includes. apply existsb_exists. exists a. split; [done|].
    by apply String.eqb_eq.
Qed.
